(** * split_preview.py: a shallow embedding and its verified properties

    The script reads [src/core/preview.rs], locates seven markers in its
    text, slices the text into blocks, composes six Rust source units from
    them and writes the units under [src/core/preview/] before unlinking
    the original file.

    Python [str] values are sequences of Unicode code points; they are
    modelled as lists of [N].  Exceptions are values of [exn]; the
    file-system calls of [pathlib] act on an explicit [world], whose log
    records the mutating calls in program order.

    The file has three parts: the script and the Python operations it
    uses, the vocabulary in which its properties are stated, and the
    properties C1-C10 with their proofs. *)

From Stdlib Require Import NArith Ascii String List Lia.
From stdpp Require Import base option list gmap strings.

(** ** Python strings *)

Module Py.

Definition char := N.
Definition str := list N.

(** Source literals: the only escape the script uses is [\n]. *)
Fixpoint unescape (cs : list ascii) : str :=
  match cs with
  | [] => []
  | c :: cs' =>
      match cs' with
      | d :: cs'' =>
          if (Ascii.eqb c "\" && Ascii.eqb d "n")%bool
          then 10%N :: unescape cs''
          else N_of_ascii c :: unescape cs'
      | [] => [N_of_ascii c]
      end
  end.

Definition lit (s : string) : str := unescape (list_ascii_of_string s).
Arguments lit _%_string.

Definition LF : char := 10%N.
Definition CR : char := 13%N.

(** [str.isspace] on one code point (CPython's [_PyUnicode_IsWhitespace]). *)
Definition isspace (c : char) : bool :=
  ((9 <=? c) && (c <=? 13) || (28 <=? c) && (c <=? 32)
   || (c =? 133) || (c =? 160) || (c =? 5760)
   || (8192 <=? c) && (c <=? 8202)
   || (c =? 8232) || (c =? 8233) || (c =? 8239) || (c =? 8287)
   || (c =? 12288))%N%bool.

(** Line boundaries of [str.splitlines] (CPython's [_PyUnicode_IsLinebreak]). *)
Definition islinebreak (c : char) : bool :=
  ((10 <=? c) && (c <=? 13) || (28 <=? c) && (c <=? 30)
   || (c =? 133) || (c =? 8232) || (c =? 8233))%N%bool.

(** [s.startswith(p)] *)
Fixpoint startswith (s p : str) {struct p} : bool :=
  match p, s with
  | [], _ => true
  | _ :: _, [] => false
  | a :: p', b :: s' => (a =? b)%N && startswith s' p'
  end.

(** [s.find(sub)]: offset of the first occurrence, scanning from offset 0. *)
Fixpoint find (s sub : str) : option nat :=
  if startswith s sub then Some 0
  else match s with
       | [] => None
       | _ :: s' => S <$> find s' sub
       end.

(** [sub in s] *)
Definition contains (sub s : str) : bool :=
  match find s sub with Some _ => true | None => false end.

(** [s[a:b]] for offsets within [0 .. len(s)]; an inverted range is empty. *)
Definition slice {A} (s : list A) (a b : nat) : list A := take (b - a) (drop a s).

(** [s.lstrip()], [s.rstrip()], [s.strip()] *)
Fixpoint lstrip (s : str) : str :=
  match s with
  | c :: s' => if isspace c then lstrip s' else s
  | [] => []
  end.

Definition rstrip (s : str) : str := rev (lstrip (rev s)).

Definition strip (s : str) : str := rstrip (lstrip s).

(** [s.splitlines()] *)
Fixpoint splitlines (s : str) : list str :=
  match s with
  | [] => []
  | c :: s' =>
      if islinebreak c then
        [] :: (if (c =? CR)%N
               then match s' with
                    | d :: s'' => if (d =? LF)%N then splitlines s'' else splitlines s'
                    | [] => []
                    end
               else splitlines s')
      else match splitlines s' with
           | [] => [[c]]
           | l :: ls => (c :: l) :: ls
           end
  end.

(** [sep.join(parts)] *)
Fixpoint join (sep : str) (parts : list str) : str :=
  match parts with
  | [] => []
  | [p] => p
  | p :: ps => p ++ sep ++ join sep ps
  end.

End Py.

Import Py.

Example splitlines_crlf :
  splitlines (lit "a\n\nb") = [lit "a"; lit ""; lit "b"]
  /\ splitlines (lit "ab\n") = [lit "ab"]
  /\ splitlines [97; CR; LF; 98; CR]%N = [lit "a"; lit "b"].
Proof. repeat split; reflexivity. Qed.

Example strip_indent : strip (lit "  a b \n\n") = lit "a b".
Proof. reflexivity. Qed.

Example find_first : find (lit "xabcabc") (lit "abc") = Some 1 /\ find (lit "ab") (lit "c") = None.
Proof. split; reflexivity. Qed.

(** ** Exceptions and results *)

Inductive exn :=
| ValueError (msg : string)
| StopIteration
| IndexError (msg : string)
| FileNotFoundError
| FileExistsError
| NotADirectoryError
| IsADirectoryError.

(** The class name and the arguments an exception carries. *)
Definition exn_class (e : exn) : string :=
  match e with
  | ValueError _ => "ValueError"
  | StopIteration => "StopIteration"
  | IndexError _ => "IndexError"
  | FileNotFoundError => "FileNotFoundError"
  | FileExistsError => "FileExistsError"
  | NotADirectoryError => "NotADirectoryError"
  | IsADirectoryError => "IsADirectoryError"
  end.

Definition exn_args (e : exn) : list string :=
  match e with
  | ValueError msg | IndexError msg => [msg]
  | _ => []
  end.

Inductive result (A : Type) :=
| Ok (a : A)
| Raise (e : exn).
Arguments Ok {A} a.
Arguments Raise {A} e.

Definition rbind {A B} (r : result A) (k : A -> result B) : result B :=
  match r with
  | Ok a => k a
  | Raise e => Raise e
  end.

Notation "x <- r ;; k" := (rbind r (fun x => k))
  (at level 100, r at next level, right associativity).

(** [s.index(sub)]: [find], raising [ValueError] when there is no occurrence. *)
Definition index (s sub : str) : result nat :=
  match find s sub with
  | Some i => Ok i
  | None => Raise (ValueError "substring not found")
  end.

(** [lines[i]] *)
Definition getitem {A} (l : list A) (i : nat) : result A :=
  match l !! i with
  | Some x => Ok x
  | None => Raise (IndexError "list index out of range")
  end.

(** ** Boundary resolution and block extraction (script lines 7-41) *)

(** The marker literals of the script. *)
Definition key_frame_cache : str := lit "struct FrameCache".
Definition key_generates : str := lit "/// Generates composited preview frames".
Definition key_plate : str := lit "impl PreviewRenderer {\n    fn plate_images".
Definition key_pending : str := lit "struct PendingDecode".
Definition key_clamp : str := lit "fn clamp_time".
Definition key_derive : str := lit "#[derive".
Definition key_preview_stats : str := lit "PreviewStats".
Definition key_const : str := lit "const DEFAULT_MAX_PREVIEW_WIDTH".

(** [next(i for i, line in enumerate(lines)
          if line.strip().startswith('#[derive') and 'PreviewStats' in lines[i+1])]:
    [todo] is the part of [lines] not yet enumerated and [i] its offset. *)
Fixpoint next_preview_stats (lines : list str) (i : nat) (todo : list str) : result nat :=
  match todo with
  | [] => Raise StopIteration
  | line :: todo' =>
      if startswith (strip line) key_derive then
        following <- getitem lines (i + 1) ;;
        if contains key_preview_stats following then Ok i
        else next_preview_stats lines (S i) todo'
      else next_preview_stats lines (S i) todo'
  end.

(** [next(i for i, line in enumerate(lines)
          if line.startswith('const DEFAULT_MAX_PREVIEW_WIDTH'))] *)
Fixpoint next_const (i : nat) (todo : list str) : result nat :=
  match todo with
  | [] => Raise StopIteration
  | line :: todo' =>
      if startswith line key_const then Ok i
      else next_const (S i) todo'
  end.

(** The module-level variables bound by lines 7-41. *)
Record locals := {
  frame_cache_start : nat;
  frame_cache_impl_end : nat;
  cache_block : str;
  renderer_start : nat;
  plate_start : nat;
  renderer_block : str;
  layers_start : nat;
  utils_start : nat;
  layers_block : str;
  utils_block : str;
  types_block : str;
  lines : list str;
  preview_stats_idx : nat;
  const_start : nat;
  const_end : nat;
  uses : list str;
  rest : list str;
  const_block : str;
  type_block : str
}.

Definition resolve (text : str) : result locals :=
  frame_cache_start <- index text key_frame_cache ;;
  frame_cache_impl_end <- index text key_generates ;;
  let cache_block := slice text frame_cache_start frame_cache_impl_end in
  renderer_start <- index text key_generates ;;
  plate_start <- index text key_plate ;;
  let renderer_block := slice text renderer_start plate_start in
  layers_start <- index text key_pending ;;
  utils_start <- index text key_clamp ;;
  let layers_block := slice text layers_start utils_start in
  let utils_block := drop utils_start text in
  let types_block := take frame_cache_start text in
  let lines := splitlines types_block in
  preview_stats_idx <- next_preview_stats lines 0 lines ;;
  const_start <- next_const 0 lines ;;
  let const_end := preview_stats_idx in
  let uses := filter (fun line => startswith line (lit "use ") = true) (take const_start lines) in
  let rest := [] in
  let const_block := strip (join (lit "\n") (slice lines const_start const_end)) in
  let type_block := strip (join (lit "\n") (drop preview_stats_idx lines)) in
  Ok {| frame_cache_start := frame_cache_start;
        frame_cache_impl_end := frame_cache_impl_end;
        cache_block := cache_block;
        renderer_start := renderer_start;
        plate_start := plate_start;
        renderer_block := renderer_block;
        layers_start := layers_start;
        utils_start := utils_start;
        layers_block := layers_block;
        utils_block := utils_block;
        types_block := types_block;
        lines := lines;
        preview_stats_idx := preview_stats_idx;
        const_start := const_start;
        const_end := const_end;
        uses := uses;
        rest := rest;
        const_block := const_block;
        type_block := type_block |}.

(** ** Unit composition (script lines 45-103) *)

Definition mod_rs : str :=
  lit "//! Preview rendering system\n//!\n//! Generates composited preview frames for the current timeline time.\n\nmod renderer;\nmod cache;\nmod layers;\nmod types;\nmod utils;\n\npub use renderer::PreviewRenderer;\npub use cache::{FrameCache, CachedFrame};\npub use layers::{PreviewLayer, PreviewLayerStack, PreviewLayerGpu};\npub use types::*;\npub use utils::*;\n".

(** Lines 48-49; the conditional expression tests the truth value of the
    stripped constants text. *)
Definition types_rs (v : locals) : str :=
  let const_block :=
    match const_block v with
    | [] => lit ""
    | _ :: _ => const_block v ++ lit "\n"
    end in
  const_block ++ type_block v ++ lit "\n".

Definition cache_header : str :=
  lit "use std::collections::{HashMap, HashSet, VecDeque};\n"
  ++ lit "use std::path::{Path, PathBuf};\n\n"
  ++ lit "use image::RgbaImage;\n\n"
  ++ lit "use super::{FrameKey, CachedFrame};\n\n".

Definition cache_rs (v : locals) : str :=
  cache_header ++ strip (cache_block v) ++ lit "\n".

Definition renderer_header : str :=
  lit "use std::path::{Path, PathBuf};\n"
  ++ lit "use std::sync::{Arc, Mutex};\n"
  ++ lit "use std::time::Instant;\n\n"
  ++ lit "use image::{Rgba, RgbaImage};\n\n"
  ++ lit "use crate::core::preview_store;\n"
  ++ lit "use crate::core::video_decode::{DecodeMode, VideoDecodeWorker};\n"
  ++ lit "use crate::state::{Asset, ClipTransform, Project, TrackType};\n\n"
  ++ lit "use super::{\n"
  ++ lit "    cache::FrameCache,\n"
  ++ lit "    layers::{PreviewLayer, PreviewLayerGpu, PreviewLayerPlacement, PreviewLayerStack},\n"
  ++ lit "    types::{PreviewDecodeMode, PreviewFrameInfo, PreviewStats, RenderOutput},\n"
  ++ lit "    utils::{\n"
  ++ lit "        clamp_time, elapsed_ms, frame_index_to_time, image_size_bytes, scale_image_to_fit,\n"
  ++ lit "        time_to_frame_index, track_lane_id,\n"
  ++ lit "    },\n"
  ++ lit "    DecodedFrame, FrameKey, PendingDecode, PlateCache,\n"
  ++ lit "};\n\n".

Definition renderer_rs (v : locals) : str :=
  renderer_header ++ strip (renderer_block v) ++ lit "\n".

Definition layers_header : str :=
  lit "use std::borrow::Cow;\n"
  ++ lit "use std::path::{Path, PathBuf};\n"
  ++ lit "use std::sync::Arc;\n\n"
  ++ lit "use image::{Rgba, RgbaImage};\n"
  ++ lit "use image::imageops::{overlay, resize, FilterType};\n"
  ++ lit "use imageproc::geometric_transformations::{rotate_about_center, Interpolation};\n\n"
  ++ lit "use crate::state::{Asset, AssetKind, ClipTransform};\n\n"
  ++ lit "use super::types::{PreviewLayerPlacement};\n\n".

Definition layers_rs (v : locals) : str :=
  layers_header ++ strip (layers_block v) ++ lit "\n".

Definition utils_header : str :=
  lit "use std::path::Path;\n"
  ++ lit "use std::time::Instant;\n\n"
  ++ lit "use image::{Rgba, RgbaImage};\n"
  ++ lit "use image::imageops::{resize, FilterType};\n\n"
  ++ lit "use crate::state::{Asset, AssetKind};\n\n".

Definition utils_rs (v : locals) : str :=
  utils_header ++ strip (utils_block v) ++ lit "\n".

(** ** The file system seen by the script *)

(** A path is its sequence of components, as [pathlib] parses it. *)
Definition path := list string.

Inductive node :=
| File (content : str)
| Dir.

(** File-system calls that returned normally, in program order. *)
Inductive event :=
| EvMkdir (p : path)
| EvWrite (p : path) (data : str)
| EvUnlink (p : path).

Record world := {
  cwd : path;
  files : gmap path node;
  log : list event
}.

Definition M (A : Type) := world -> result A * world.

Definition ret {A} (a : A) : M A := fun w => (Ok a, w).

Definition raise {A} (e : exn) : M A := fun w => (Raise e, w).

Definition bind {A B} (m : M A) (k : A -> M B) : M B :=
  fun w => match m w with
           | (Ok a, w') => k a w'
           | (Raise e, w') => (Raise e, w')
           end.

Definition lift {A} (r : result A) : M A := fun w => (r, w).

Notation "x <~ m ;; k" := (bind m (fun x => k))
  (at level 100, m at next level, right associativity).
Notation "m ;;; k" := (bind m (fun _ => k))
  (at level 100, right associativity).

Definition parent (p : path) : path := removelast p.

(** [os.chdir(p)] with an absolute [p]. *)
Definition chdir (p : path) : M unit :=
  fun w => match files w !! p with
           | Some Dir => (Ok tt, {| cwd := p; files := files w; log := log w |})
           | Some (File _) => (Raise NotADirectoryError, w)
           | None => (Raise FileNotFoundError, w)
           end.

(** [Path(p).read_text(encoding='utf-8')]: the stored content is the
    decoded text. *)
Definition read_text (p : path) : M str :=
  fun w => match files w !! (cwd w ++ p) with
           | Some (File content) => (Ok content, w)
           | Some Dir => (Raise IsADirectoryError, w)
           | None => (Raise FileNotFoundError, w)
           end.

(** [Path(p).mkdir(exist_ok=True)] *)
Definition mkdir_exist_ok (p : path) : M unit :=
  fun w => let q := cwd w ++ p in
           match files w !! q with
           | Some Dir => (Ok tt, {| cwd := cwd w; files := files w; log := log w ++ [EvMkdir p] |})
           | Some (File _) => (Raise FileExistsError, w)
           | None =>
               match files w !! parent q with
               | Some Dir => (Ok tt, {| cwd := cwd w; files := <[q := Dir]> (files w);
                                        log := log w ++ [EvMkdir p] |})
               | Some (File _) => (Raise NotADirectoryError, w)
               | None => (Raise FileNotFoundError, w)
               end
           end.

(** [Path(p).write_text(data, encoding='utf-8')] *)
Definition write_text (p : path) (data : str) : M unit :=
  fun w => let q := cwd w ++ p in
           match files w !! q with
           | Some Dir => (Raise IsADirectoryError, w)
           | _ =>
               match files w !! parent q with
               | Some Dir => (Ok tt, {| cwd := cwd w; files := <[q := File data]> (files w);
                                        log := log w ++ [EvWrite p data] |})
               | Some (File _) => (Raise NotADirectoryError, w)
               | None => (Raise FileNotFoundError, w)
               end
           end.

(** [Path(p).unlink(missing_ok=True)] *)
Definition unlink_missing_ok (p : path) : M unit :=
  fun w => let q := cwd w ++ p in
           match files w !! q with
           | Some (File _) => (Ok tt, {| cwd := cwd w; files := delete q (files w);
                                         log := log w ++ [EvUnlink p] |})
           | Some Dir => (Raise IsADirectoryError, w)
           | None => (Ok tt, {| cwd := cwd w; files := files w; log := log w ++ [EvUnlink p] |})
           end.

(** ** The script *)

Definition repo_dir : path := ["C:"; "repos"; "nla-ai-videocreator-rust"]%string.
Definition preview_rs : path := ["src"; "core"; "preview.rs"]%string.
Definition preview_dir : path := ["src"; "core"; "preview"]%string.
Definition unit_path (name : string) : path := preview_dir ++ [name].

Definition main : M unit :=
  chdir repo_dir ;;;
  text <~ read_text preview_rs ;;
  v <~ lift (resolve text) ;;
  mkdir_exist_ok preview_dir ;;;
  write_text (unit_path "mod.rs") mod_rs ;;;
  write_text (unit_path "types.rs") (types_rs v) ;;;
  write_text (unit_path "cache.rs") (cache_rs v) ;;;
  write_text (unit_path "renderer.rs") (renderer_rs v) ;;;
  write_text (unit_path "layers.rs") (layers_rs v) ;;;
  write_text (unit_path "utils.rs") (utils_rs v) ;;;
  unlink_missing_ok preview_rs.

(** * Vocabulary of the properties *)

(** ** Occurrences of markers *)

(** [sub] occurs in [s] at offset [i]. *)
Definition occurs_at (sub s : str) (i : nat) : Prop :=
  exists t, drop i s = sub ++ t.

Definition occurs (sub s : str) : Prop := exists i, occurs_at sub s i.

(** [off] is the offset of the first occurrence of [key] in [text],
    counted from the start of the text. *)
Definition first_occurrence (key text : str) (off : nat) : Prop :=
  occurs_at key text off /\ forall j, j < off -> ~ occurs_at key text j.

(** The search keys handed to [text.index], in program order. *)
Definition index_keys : list str :=
  [key_frame_cache; key_generates; key_generates; key_plate; key_pending; key_clamp].

(** [lines_prefix P L]: [P] agrees with [L] line by line, except that the
    last line of [P] may be cut short. *)
Inductive lines_prefix : list str -> list str -> Prop :=
| lp_nil L : lines_prefix [] L
| lp_last p t L : lines_prefix [p] ((p ++ t) :: L)
| lp_cons l P L : lines_prefix P L -> lines_prefix (l :: P) (l :: L).

(** Line [i] is a [#[derive] line and line [i+1] mentions PreviewStats. *)
Definition derive_pattern_at (ls : list str) (i : nat) : Prop :=
  exists l n, ls !! i = Some l /\ ls !! S i = Some n
              /\ startswith (strip l) key_derive = true
              /\ contains key_preview_stats n = true.

(** Line [i] starts with the constants key. *)
Definition const_pattern_at (ls : list str) (i : nat) : Prop :=
  exists l, ls !! i = Some l /\ startswith l key_const = true.

(** Some marker the script looks for is missing from the document: an
    [index] key does not occur, or no line pair / line of the document
    matches one of the two line searches. *)
Definition marker_absent (text : str) : Prop :=
  (exists k, k ∈ index_keys /\ ~ occurs k text)
  \/ (forall i, ~ derive_pattern_at (splitlines text) i)
  \/ (forall i, ~ const_pattern_at (splitlines text) i).

(** How boundary resolution fails with [e] on [text]: an [index] key
    does not occur in the document ([ValueError]); or every key occurs
    and, among the lines in front of the first [struct FrameCache], the
    PreviewStats search finds no pair ([IndexError] when the last of
    these lines is a [#[derive] line, [StopIteration] otherwise), or it
    finds one and the constants search finds no line ([StopIteration]). *)
Definition search_failure (text : str) (e : exn) : Prop :=
  (e = ValueError "substring not found"
   /\ exists k, k ∈ index_keys /\ ~ occurs k text)
  \/ ((forall k, k ∈ index_keys -> occurs k text)
      /\ exists fc, first_occurrence key_frame_cache text fc
         /\ let ls := splitlines (take fc text) in
            ((forall j, ~ derive_pattern_at ls j)
             /\ ((e = IndexError "list index out of range"
                  /\ exists l, last ls = Some l
                               /\ startswith (strip l) key_derive = true)
                 \/ (e = StopIteration
                     /\ forall l, last ls = Some l ->
                                  startswith (strip l) key_derive = false)))
            \/ ((exists j, derive_pattern_at ls j)
                /\ (forall j, ~ const_pattern_at ls j)
                /\ e = StopIteration)).

(** The text is empty or ends with a line break. *)
Definition ends_line (s : str) : Prop :=
  match last s with
  | Some c => islinebreak c = true
  | None => True
  end.

(** ** Unit bodies *)

(** The text ends with a line feed that no other line break precedes. *)
Definition ends_with_one_newline (body : str) : bool :=
  match rev body with
  | a :: c :: _ => (a =? LF)%N && negb (islinebreak c)
  | _ => false
  end.

(** The text ends with a line of text followed by one empty line. *)
Definition ends_with_blank_line (header : str) : bool :=
  match rev header with
  | a :: b :: c :: _ => (a =? LF)%N && (b =? LF)%N && negb (islinebreak c)
  | _ => false
  end.

(** The units that carry a header: header, block and composed body. *)
Definition header_units (v : locals) : list (str * str * str) :=
  [ (cache_header, cache_block v, cache_rs v);
    (renderer_header, renderer_block v, renderer_rs v);
    (layers_header, layers_block v, layers_rs v);
    (utils_header, utils_block v, utils_rs v) ].

(** How a header unit is put together: the header already ends with its
    blank line; the block is cut down by [strip], which removes white
    space only; a block with something in it gives a body that starts
    its content right after the blank line and ends with one line feed. *)
Definition composed_with_header (u : str * str * str) : Prop :=
  let '(header, block, body) := u in
  ends_with_blank_line header = true
  /\ body = header ++ strip block ++ [LF]
  /\ (exists pre post, block = pre ++ strip block ++ post
        /\ Forall (fun c => isspace c = true) pre
        /\ Forall (fun c => isspace c = true) post)
  /\ (strip block <> [] ->
      ends_with_one_newline body = true
      /\ exists c r, strip block = c :: r /\ isspace c = false).

(** ** Worlds and traces *)

(** The repository directory exists and [src/core/preview.rs] holds [text]. *)
Definition holds_document (w : world) (text : str) : Prop :=
  files w !! repo_dir = Some Dir
  /\ files w !! (repo_dir ++ preview_rs) = Some (File text).

(** A checkout whose only file is the document. *)
Definition checkout (text : str) : world :=
  {| cwd := [];
     files := <[repo_dir ++ preview_rs := File text]>
                (<[repo_dir ++ ["src"; "core"]%string := Dir]>
                   (<[repo_dir := Dir]> ∅));
     log := [] |}.

(** A checkout in which [src/core/preview/] already exists and
    [types.rs] is taken by a directory: the run stops at its second write. *)
Definition checkout_blocked (text : str) : world :=
  {| cwd := [];
     files := <[repo_dir ++ unit_path "types.rs" := Dir]>
                (<[repo_dir ++ preview_dir := Dir]> (files (checkout text)));
     log := [] |}.

(** A world in which the original document is already gone. *)
Definition world_without_document : world :=
  {| cwd := repo_dir; files := {[ repo_dir := Dir ]}; log := [] |}.

(** [m] either returns after logging exactly [ev], leaving the working
    directory alone, or raises without touching the world. *)
Definition logs (m : M unit) (ev : event) : Prop :=
  forall w,
    (exists w1, m w = (Ok tt, w1) /\ log w1 = log w ++ [ev] /\ cwd w1 = cwd w)
    \/ (exists e, m w = (Raise e, w)).

(** Running actions one after the other, as [;;;] chains them. *)
Fixpoint sequence (acts : list (M unit)) : M unit :=
  match acts with
  | [] => ret tt
  | [a] => a
  | a :: rest => a ;;; sequence rest
  end.

(** The mutating calls of a complete run, in program order. *)
Definition full_events (v : locals) : list event :=
  [ EvMkdir preview_dir;
    EvWrite (unit_path "mod.rs") mod_rs;
    EvWrite (unit_path "types.rs") (types_rs v);
    EvWrite (unit_path "cache.rs") (cache_rs v);
    EvWrite (unit_path "renderer.rs") (renderer_rs v);
    EvWrite (unit_path "layers.rs") (layers_rs v);
    EvWrite (unit_path "utils.rs") (utils_rs v);
    EvUnlink preview_rs ].

(** The events of a complete run before the unlink. *)
Definition events_before_unlink (v : locals) : list event :=
  [ EvMkdir preview_dir;
    EvWrite (unit_path "mod.rs") mod_rs;
    EvWrite (unit_path "types.rs") (types_rs v);
    EvWrite (unit_path "cache.rs") (cache_rs v);
    EvWrite (unit_path "renderer.rs") (renderer_rs v);
    EvWrite (unit_path "layers.rs") (layers_rs v);
    EvWrite (unit_path "utils.rs") (utils_rs v) ].

Definition is_unlink (ev : event) : Prop := exists p, ev = EvUnlink p.

(** The events a run adds to the log. *)
Definition trace (w : world) : list event :=
  drop (length (log w)) (log (main w).2).

(** The file writes among some events: path and data, in order. *)
Definition write_of (ev : event) : option (path * str) :=
  match ev with
  | EvWrite p data => Some (p, data)
  | _ => None
  end.

Definition written (evs : list event) : list (path * str) := omap write_of evs.

(** ** Reading the manifest *)

(** [s.removeprefix(p)] and [s.removesuffix(p)], when [p] is there. *)
Definition strip_prefix (p s : str) : option str :=
  if startswith s p then Some (drop (length p) s) else None.

Definition strip_suffix (p s : str) : option str :=
  @rev N <$> strip_prefix (rev p) (rev s).

(** The unit named by a declaration line [mod NAME;]. *)
Definition mod_declaration (line : str) : option str :=
  s ← strip_prefix (lit "mod ") line; strip_suffix (lit ";") s.

(** The unit and the re-exported symbols of a line [pub use NAME::SYMBOLS;]. *)
Definition reexport (line : str) : option (str * str) :=
  s ← strip_prefix (lit "pub use ") line;
  s ← strip_suffix (lit ";") s;
  i ← find s (lit "::");
  Some (take i s, drop (i + 2) s).

Definition declared_units (manifest : str) : list str :=
  omap mod_declaration (splitlines manifest).

Definition reexported (manifest : str) : list (str * str) :=
  omap reexport (splitlines manifest).

(** The unit a written path belongs to: its file name without [.rs]. *)
Definition unit_name (p : path) : option str :=
  name ← last p; strip_suffix (lit ".rs") (lit name).

(** The units split off the document, in the order the script composes
    and writes them: every written unit but the manifest itself. *)
Definition split_off_units (v : locals) : list str :=
  filter (fun name => name <> lit "mod") (omap unit_name (written (full_events v)).*1).

(** The units in the order in which the script slices their blocks
    (lines 9-22). *)
Definition units_in_block_order : list str :=
  [lit "cache"; lit "renderer"; lit "layers"; lit "utils"; lit "types"].

(** Positions of the declaration line and of the re-export line of a unit
    in the manifest. *)
Definition declared_then_reexported (manifest : str) (name : str) : Prop :=
  exists i j symbols,
    mod_declaration <$> splitlines manifest !! i = Some (Some name)
    /\ reexport <$> splitlines manifest !! j = Some (Some (name, symbols))
    /\ i < j.






(** A unit whose block starts with text: the body is the header, the
    block without its trailing white space, and one line feed. *)
Definition keeps_block_front (u : str * str * str) : Prop :=
  let '(header, block, body) := u in
  exists ws,
    block = rstrip block ++ ws
    /\ Forall (fun c => isspace c = true) ws
    /\ rstrip block <> []
    /\ body = header ++ rstrip block ++ [LF].

(** Every line break of the text is a line feed. *)
Definition lf_only (s : str) : Prop :=
  Forall (fun c => islinebreak c = true -> c = LF) s.

(** ** Replaying a trace *)

(** The path an event acts on, relative to the working directory. *)
Definition event_path (ev : event) : path :=
  match ev with
  | EvMkdir p | EvWrite p _ | EvUnlink p => p
  end.

(** The call an event stands for. *)
Definition action_of (ev : event) : M unit :=
  match ev with
  | EvMkdir p => mkdir_exist_ok p
  | EvWrite p data => write_text p data
  | EvUnlink p => unlink_missing_ok p
  end.

(** What the call behind [ev] does to the files when it returns, with
    [base] as working directory. *)
Definition replay_event (base : path) (ev : event) (m : gmap path node) : gmap path node :=
  match ev with
  | EvMkdir p => <[base ++ p := Dir]> m
  | EvWrite p data => <[base ++ p := File data]> m
  | EvUnlink p => delete (base ++ p) m
  end.

Definition replay (base : path) (evs : list event) (m : gmap path node) : gmap path node :=
  foldl (fun m ev => replay_event base ev m) m evs.

(** The files let the call behind [ev] return. *)
Definition permits (base : path) (ev : event) (m : gmap path node) : Prop :=
  match ev with
  | EvMkdir p =>
      m !! (base ++ p) = Some Dir
      \/ (m !! (base ++ p) = None /\ m !! parent (base ++ p) = Some Dir)
  | EvWrite p _ =>
      m !! (base ++ p) <> Some Dir /\ m !! parent (base ++ p) = Some Dir
  | EvUnlink p => m !! (base ++ p) <> Some Dir
  end.

(** Every call of the list can return, each on the files its
    predecessors leave. *)
Fixpoint feasible (base : path) (evs : list event) (m : gmap path node) : Prop :=
  match evs with
  | [] => True
  | ev :: evs' => permits base ev m /\ feasible base evs' (replay_event base ev m)
  end.

(** The file names of the six units, in the order they are written. *)
Definition unit_files : list string :=
  ["mod.rs"; "types.rs"; "cache.rs"; "renderer.rs"; "layers.rs"; "utils.rs"]%string.

(** The files let the script create its directory and write its units:
    [src/core/preview] is a directory, or is absent with [src/core] a
    directory, and no unit path is taken by a directory. *)
Definition can_commit (w : world) : Prop :=
  (files w !! (repo_dir ++ preview_dir) = Some Dir
   \/ (files w !! (repo_dir ++ preview_dir) = None
       /\ files w !! (repo_dir ++ parent preview_dir) = Some Dir))
  /\ Forall (fun name => files w !! (repo_dir ++ unit_path name) <> Some Dir) unit_files.

(** The paths a run can change, relative to the repository. *)
Definition touched_paths : list path :=
  preview_rs :: preview_dir :: (unit_path <$> unit_files).

(** ** Sample documents *)

(** A document with every marker, in the order the script expects. *)
Definition doc_in_order : str :=
  lit "use a;\nconst DEFAULT_MAX_PREVIEW_WIDTH: u32 = 1;\n#[derive(Debug)]\nstruct PreviewStats;\nstruct FrameCache;\n/// Generates composited preview frames\nstruct PreviewRenderer;\nimpl PreviewRenderer {\n    fn plate_images() {}\n}\nstruct PendingDecode;\nfn clamp_time() {}\n".

(** [doc_in_order], cut in front of its constants line. *)
Definition doc_preamble : str := lit "use a;\n".

Definition doc_from_constants : str :=
  lit "const DEFAULT_MAX_PREVIEW_WIDTH: u32 = 1;\n#[derive(Debug)]\nstruct PreviewStats;\nstruct FrameCache;\n/// Generates composited preview frames\nstruct PreviewRenderer;\nimpl PreviewRenderer {\n    fn plate_images() {}\n}\nstruct PendingDecode;\nfn clamp_time() {}\n".

(** A document without any marker. *)
Definition doc_no_markers : str := lit "fn main() {}\n".

(** Every marker of the script, but with [fn clamp_time] placed before
    [struct PendingDecode]. *)
Definition doc_swapped : str :=
  lit "const DEFAULT_MAX_PREVIEW_WIDTH: u32 = 1;\n#[derive(Debug)]\nstruct PreviewStats;\nstruct FrameCache;\n/// Generates composited preview frames\nimpl PreviewRenderer {\n    fn plate_images() {}\n}\nfn clamp_time() {}\nstruct PendingDecode;\n".

(** The PreviewStats [#[derive] line placed before the constants line. *)
Definition doc_derive_first : str :=
  lit "#[derive(Debug)]\nstruct PreviewStats;\nconst DEFAULT_MAX_PREVIEW_WIDTH: u32 = 1;\nstruct FrameCache;\n/// Generates composited preview frames\nimpl PreviewRenderer {\n    fn plate_images() {}\n}\nstruct PendingDecode;\nfn clamp_time() {}\n".


(** Every pattern occurs, but the PreviewStats pair stands after
    [struct FrameCache], whose own [#[derive] line ends the types block. *)
Definition doc_stats_after_frame_cache : str :=
  lit "const DEFAULT_MAX_PREVIEW_WIDTH: u32 = 1;\n#[derive(Debug)]\nstruct FrameCache;\n#[derive(Debug)]\nstruct PreviewStats;\n/// Generates composited preview frames\nimpl PreviewRenderer {\n    fn plate_images() {}\n}\nstruct PendingDecode;\nfn clamp_time() {}\n".

(** Every pattern occurs, but the constants line stands after
    [struct FrameCache]. *)
Definition doc_const_after_frame_cache : str :=
  lit "#[derive(Debug)]\nstruct PreviewStats;\nstruct FrameCache;\nconst DEFAULT_MAX_PREVIEW_WIDTH: u32 = 1;\n/// Generates composited preview frames\nimpl PreviewRenderer {\n    fn plate_images() {}\n}\nstruct PendingDecode;\nfn clamp_time() {}\n".

(** * Properties *)

(** The marker literals are compared by evaluation only. *)
Global Opaque key_frame_cache key_generates key_plate key_pending key_clamp
  key_derive key_preview_stats key_const.

(** ** Facts about the string operations *)

Section StringFacts.

Implicit Types s t sub p : str.

Lemma startswith_spec s p : startswith s p = true <-> exists t, s = p ++ t.
Proof.
  revert s; induction p as [|a p IH]; intros s; simpl.
  - split; [intros _; by exists s | done].
  - destruct s as [|b s]; simpl.
    + split; [discriminate | intros [t Ht]; discriminate].
    + rewrite andb_true_iff, N.eqb_eq, IH. split.
      * intros [-> [t ->]]. by exists t.
      * intros [t Ht]. injection Ht as -> ->. split; [done | by exists t].
Qed.

Lemma startswith_occurs_at s sub i :
  startswith (drop i s) sub = true <-> occurs_at sub s i.
Proof. apply startswith_spec. Qed.

Lemma startswith_app s t p : startswith s p = true -> startswith (s ++ t) p = true.
Proof.
  rewrite !startswith_spec. intros [u ->]. exists (u ++ t). by rewrite app_assoc.
Qed.

Lemma find_Some s sub i :
  find s sub = Some i <->
  occurs_at sub s i /\ i <= length s /\ forall j, j < i -> ~ occurs_at sub s j.
Proof.
  revert i; induction s as [|c s IH]; intros i.
  - simpl. destruct (startswith [] sub) eqn:E.
    + split.
      * intros [= <-]. split; [by apply startswith_occurs_at|]. split; [simpl; lia | lia].
      * intros (_ & Hi & _). simpl in Hi. f_equal; lia.
    + split; [discriminate|]. intros (Ho & Hi & _). simpl in Hi.
      assert (i = 0) as -> by lia. apply startswith_occurs_at in Ho. simpl in Ho. congruence.
  - cbn [find]. destruct (startswith (c :: s) sub) eqn:E.
    + split.
      * intros [= <-]. split; [by apply startswith_occurs_at|]. split; [simpl; lia | lia].
      * intros (_ & _ & Hmin). destruct i as [|i]; [done|].
        exfalso. apply (Hmin 0); [lia|]. by apply startswith_occurs_at.
    + destruct i as [|i].
      * split.
        -- destruct (find s sub); discriminate.
        -- intros (Ho & _). apply startswith_occurs_at in Ho. simpl in Ho. congruence.
      * transitivity (find s sub = Some i).
        { destruct (find s sub); simpl; split; congruence. }
        rewrite IH. unfold occurs_at. simpl. split.
        -- intros (Ho & Hi & Hmin). repeat split; [done | lia |].
           intros [|j] Hj; [|apply Hmin; lia].
           intros Ho'. apply startswith_occurs_at in Ho'. simpl in Ho'. congruence.
        -- intros (Ho & Hi & Hmin). repeat split; [done | lia |].
           intros j Hj. apply (Hmin (S j)). lia.
Qed.

Lemma find_None s sub : find s sub = None <-> ~ occurs sub s.
Proof.
  induction s as [|c s IH].
  - simpl. destruct (startswith [] sub) eqn:E.
    + split; [discriminate|]. intros H. exfalso. apply H. exists 0.
      by apply startswith_occurs_at.
    + split; [|done]. intros _ [i Ho]. apply startswith_occurs_at in Ho.
      rewrite drop_nil in Ho. congruence.
  - cbn [find]. destruct (startswith (c :: s) sub) eqn:E.
    + split; [discriminate|]. intros H. exfalso. apply H. exists 0.
      by apply startswith_occurs_at.
    + transitivity (find s sub = None).
      { destruct (find s sub); simpl; split; congruence. }
      rewrite IH. split.
      * intros H [[|i] Ho].
        -- apply startswith_occurs_at in Ho. simpl in Ho. congruence.
        -- apply H. by exists i.
      * intros H [i Ho]. apply H. by exists (S i).
Qed.

Lemma occurs_split sub s : occurs sub s <-> exists a b, s = a ++ sub ++ b.
Proof.
  split.
  - intros [i [t Ht]]. exists (take i s), t. by rewrite <- Ht, take_drop.
  - intros (a & b & ->). exists (length a), b. by rewrite drop_app_length.
Qed.

Lemma contains_occurs sub s : contains sub s = true <-> occurs sub s.
Proof.
  unfold contains. destruct (find s sub) as [i|] eqn:E.
  - split; [|done]. intros _. apply find_Some in E as [Ho _]. by exists i.
  - split; [discriminate|]. intros H. by apply find_None in E.
Qed.

Lemma index_Ok s sub i :
  index s sub = Ok i <->
  occurs_at sub s i /\ i <= length s /\ forall j, j < i -> ~ occurs_at sub s j.
Proof.
  rewrite <- find_Some. unfold index. destruct (find s sub); split; congruence.
Qed.

Lemma index_Raise s sub e :
  index s sub = Raise e <-> ~ occurs sub s /\ e = ValueError "substring not found".
Proof.
  rewrite <- find_None. unfold index. destruct (find s sub); split.
  - discriminate.
  - intros [? _]. discriminate.
  - intros [= <-]. done.
  - intros [_ ->]. done.
Qed.

End StringFacts.

(** ** Lines of a prefix of a text *)

Lemma splitlines_cons_char c s :
  islinebreak c = false ->
  splitlines (c :: s) =
    match splitlines s with
    | [] => [[c]]
    | l :: ls => (c :: l) :: ls
    end.
Proof. intros H. simpl. by rewrite H. Qed.

Lemma lines_prefix_cons_char c P L :
  lines_prefix P L ->
  lines_prefix (match P with [] => [[c]] | l :: ls => (c :: l) :: ls end)
               (match L with [] => [[c]] | l :: ls => (c :: l) :: ls end).
Proof.
  intros H. destruct H as [L | p t L | l P L H].
  - destruct L as [|l ls].
    + apply (lp_last [c] []).
    + apply (lp_last [c] l).
  - apply (lp_last (c :: p) t).
  - by apply lp_cons.
Qed.

Lemma splitlines_prefix_bounded n a b :
  length a <= n -> lines_prefix (splitlines a) (splitlines (a ++ b)).
Proof.
  revert a; induction n as [|n IH]; intros a Hn.
  - destruct a; [apply lp_nil | simpl in Hn; lia].
  - destruct a as [|c a]; [apply lp_nil|].
    simpl in Hn. rewrite <- app_comm_cons.
    destruct (islinebreak c) eqn:Hc.
    + simpl. rewrite Hc. apply lp_cons.
      destruct (c =? CR)%N.
      * destruct a as [|d a]; [apply lp_nil|].
        simpl in Hn. rewrite <- app_comm_cons.
        destruct (d =? LF)%N; apply IH; simpl; lia.
      * apply IH. lia.
    + rewrite !splitlines_cons_char by done.
      apply lines_prefix_cons_char, IH. lia.
Qed.

Lemma splitlines_take n s : lines_prefix (splitlines (take n s)) (splitlines s).
Proof.
  rewrite <- (take_drop n s) at 2. by apply (splitlines_prefix_bounded (length (take n s))).
Qed.

Lemma lines_prefix_lookup P L i l :
  lines_prefix P L -> P !! i = Some l -> exists t, L !! i = Some (l ++ t).
Proof.
  intros H; revert i; induction H as [L | p t L | l' P L H IH]; intros i Hi.
  - done.
  - destruct i as [|i]; [|done]. injection Hi as <-. by exists t.
  - destruct i as [|i].
    + injection Hi as <-. exists []. by rewrite app_nil_r.
    + by apply IH.
Qed.

Lemma lines_prefix_lookup_inner P L i l :
  lines_prefix P L -> P !! i = Some l -> is_Some (P !! S i) -> L !! i = Some l.
Proof.
  intros H; revert i; induction H as [L | p t L | l' P L H IH]; intros i Hi [n Hn].
  - done.
  - destruct i; done.
  - destruct i as [|i]; [done|]. apply IH; [done | by exists n].
Qed.

(** ** The markers and the two line searches *)

Lemma derive_pattern_intro ls i l n :
  ls !! i = Some l -> ls !! S i = Some n ->
  startswith (strip l) key_derive = true ->
  contains key_preview_stats n = true ->
  derive_pattern_at ls i.
Proof. intros. exists l, n. auto. Qed.

Lemma next_preview_stats_Ok ls todo i k :
  drop i ls = todo ->
  next_preview_stats ls i todo = Ok k ->
  i <= k /\ derive_pattern_at ls k /\ forall j, i <= j < k -> ~ derive_pattern_at ls j.
Proof.
  revert i; induction todo as [|line todo IH]; intros i Hdrop; [discriminate|].
  assert (Hline : ls !! i = Some line).
  { pose proof (lookup_drop ls i 0) as Hl. rewrite Hdrop, Nat.add_0_r in Hl. done. }
  assert (Hdrop' : drop (S i) ls = todo).
  { pose proof (drop_drop ls 1 i) as Hd. rewrite Hdrop, Nat.add_1_r in Hd. done. }
  cbn [next_preview_stats].
  destruct (startswith (strip line) key_derive) eqn:Hd.
  - unfold getitem. rewrite Nat.add_1_r.
    destruct (ls !! S i) as [n|] eqn:Hn; cbn [rbind]; [|discriminate].
    destruct (contains key_preview_stats n) eqn:Hc.
    + intros [= <-]. split; [lia|]. split; [by eapply derive_pattern_intro | intros j; lia].
    + intros Hk. destruct (IH _ Hdrop' Hk) as (Hle & Hat & Hmin).
      split; [lia|]. split; [done|]. intros j Hj (l' & n' & Hl' & Hn' & Hd' & Hc').
      destruct (decide (j = i)) as [->|Hne]; [congruence|].
      apply (Hmin j); [lia|]. by eapply derive_pattern_intro.
  - intros Hk. destruct (IH _ Hdrop' Hk) as (Hle & Hat & Hmin).
    split; [lia|]. split; [done|]. intros j Hj (l' & n' & Hl' & Hn' & Hd' & Hc').
    destruct (decide (j = i)) as [->|Hne]; [congruence|].
    apply (Hmin j); [lia|]. by eapply derive_pattern_intro.
Qed.

Lemma next_const_Ok todo i k :
  next_const i todo = Ok k ->
  exists j, k = i + j /\ const_pattern_at todo j /\ forall j', j' < j -> ~ const_pattern_at todo j'.
Proof.
  revert i; induction todo as [|line todo IH]; intros i; [discriminate|].
  cbn [next_const].
  destruct (startswith line key_const) eqn:Hs.
  - intros [= <-]. exists 0. split; [lia|]. split; [by exists line | intros j'; lia].
  - intros Hk. destruct (IH _ Hk) as (j & -> & Hat & Hmin).
    exists (S j). split; [lia|]. split; [done|].
    intros [|j'] Hj' (l' & Hl' & Hs'); [simpl in Hl'; congruence|].
    apply (Hmin j'); [lia|]. by exists l'.
Qed.

Lemma derive_pattern_prefix P L i :
  lines_prefix P L -> derive_pattern_at P i -> derive_pattern_at L i.
Proof.
  intros HP (l & n & Hl & Hn & Hd & Hc).
  destruct (lines_prefix_lookup _ _ _ _ HP Hn) as [t Ht].
  exists l, (n ++ t). split; [|split; [done|split; [done|]]].
  - eapply lines_prefix_lookup_inner; eauto.
  - apply contains_occurs. apply contains_occurs in Hc as [j [u Hu]].
    apply occurs_split. exists (take j n), (u ++ t).
    rewrite <- (take_drop j n) at 1. rewrite Hu. by rewrite <- !app_assoc.
Qed.

Lemma const_pattern_prefix P L i :
  lines_prefix P L -> const_pattern_at P i -> const_pattern_at L i.
Proof.
  intros HP (l & Hl & Hs).
  destruct (lines_prefix_lookup _ _ _ _ HP Hl) as [t Ht].
  exists (l ++ t). split; [done|]. by apply startswith_app.
Qed.

(** Splitting [resolve] back into its successive bindings. *)
Ltac unbind H :=
  repeat match type of H with
         | rbind ?r _ = _ =>
             let E := fresh "E" in
             destruct r eqn:E; cbn [rbind] in H; [|discriminate H]
         end.

Lemma resolve_Ok text v :
  resolve text = Ok v ->
  index text key_frame_cache = Ok (frame_cache_start v)
  /\ index text key_generates = Ok (frame_cache_impl_end v)
  /\ index text key_generates = Ok (renderer_start v)
  /\ index text key_plate = Ok (plate_start v)
  /\ index text key_pending = Ok (layers_start v)
  /\ index text key_clamp = Ok (utils_start v)
  /\ lines v = splitlines (take (frame_cache_start v) text)
  /\ next_preview_stats (lines v) 0 (lines v) = Ok (preview_stats_idx v)
  /\ next_const 0 (lines v) = Ok (const_start v).
Proof.
  unfold resolve. intros H. unbind H. injection H as <-. cbn. split_and!; done.
Qed.

(** ** Atomicity on a missing marker *)

Lemma resolve_Ok_markers text v :
  resolve text = Ok v ->
  (forall k, k ∈ index_keys -> occurs k text)
  /\ derive_pattern_at (splitlines text) (preview_stats_idx v)
  /\ const_pattern_at (splitlines text) (const_start v).
Proof.
  intros H. apply resolve_Ok in H as (H1 & H2 & _ & H4 & H5 & H6 & Hl & Hp & Hc).
  split; [|split].
  - intros k Hk. unfold index_keys in Hk. rewrite !elem_of_cons, elem_of_nil in Hk.
    apply index_Ok in H1 as [H1 _], H2 as [H2 _], H4 as [H4 _], H5 as [H5 _], H6 as [H6 _].
    destruct Hk as [->|[->|[->|[->|[->|[->|[]]]]]]].
    + exact (ex_intro _ _ H1).
    + exact (ex_intro _ _ H2).
    + exact (ex_intro _ _ H2).
    + exact (ex_intro _ _ H4).
    + exact (ex_intro _ _ H5).
    + exact (ex_intro _ _ H6).
  - apply (next_preview_stats_Ok (lines v)) in Hp as (_ & Hp & _); [|done].
    rewrite Hl in Hp. eapply derive_pattern_prefix; [apply splitlines_take | done].
  - apply next_const_Ok in Hc as (j & Hj & Hc & _). simpl in Hj. subst j.
    rewrite Hl in Hc. eapply const_pattern_prefix; [apply splitlines_take | done].
Qed.

Lemma marker_absent_resolve text :
  marker_absent text -> exists e, resolve text = Raise e.
Proof.
  intros Habs. destruct (resolve text) as [v|e] eqn:E; [exfalso | by exists e].
  apply resolve_Ok_markers in E as (Hk & Hd & Hc).
  destruct Habs as [(k & Hin & Hno) | [Hno | Hno]].
  - by apply Hno, Hk.
  - by apply (Hno (preview_stats_idx v)).
  - by apply (Hno (const_start v)).
Qed.

(** The script up to the end of boundary resolution. *)
Lemma main_resolution_fails w text e :
  holds_document w text -> resolve text = Raise e ->
  main w = (Raise e, {| cwd := repo_dir; files := files w; log := log w |}).
Proof.
  intros [Hd Hf] Hr. unfold main, bind, chdir, read_text, lift.
  rewrite Hd. cbn [cwd files log]. rewrite Hf, Hr. done.
Qed.

(** C1 (atomicity of effect): when a marker is missing from the document,
    the run ends with an exception raised by boundary resolution, and the
    world it leaves is the initial one up to the working directory: no
    file was written, the original document is still there, and no
    mutating call is logged. *)
Theorem atomicity_on_missing_marker w text :
  holds_document w text -> marker_absent text ->
  exists e, resolve text = Raise e
            /\ main w = (Raise e, {| cwd := repo_dir; files := files w; log := log w |}).
Proof.
  intros Hw Habs. destruct (marker_absent_resolve text Habs) as [e He].
  exists e. split; [done|]. by apply (main_resolution_fails w text e).
Qed.

Lemma checkout_holds text : holds_document (checkout text) text.
Proof. split; vm_compute; reflexivity. Qed.

Lemma atomicity_on_missing_marker_witness :
  holds_document (checkout doc_no_markers) doc_no_markers
  /\ marker_absent doc_no_markers
  /\ exists e, resolve doc_no_markers = Raise e
               /\ main (checkout doc_no_markers)
                  = (Raise e, {| cwd := repo_dir; files := files (checkout doc_no_markers);
                                 log := log (checkout doc_no_markers) |}).
Proof.
  assert (Habs : marker_absent doc_no_markers).
  { left. exists key_frame_cache. split; [apply list_elem_of_here|].
    apply find_None. vm_compute. reflexivity. }
  split; [apply checkout_holds|]. split; [exact Habs|].
  exact (atomicity_on_missing_marker (checkout doc_no_markers) doc_no_markers
           (checkout_holds doc_no_markers) Habs).
Defined.

(** ** Block ranges *)

Lemma resolve_blocks text v :
  resolve text = Ok v ->
  types_block v = take (frame_cache_start v) text
  /\ cache_block v = slice text (frame_cache_start v) (frame_cache_impl_end v)
  /\ renderer_block v = slice text (renderer_start v) (plate_start v)
  /\ layers_block v = slice text (layers_start v) (utils_start v)
  /\ utils_block v = drop (utils_start v) text
  /\ frame_cache_impl_end v = renderer_start v.
Proof.
  unfold resolve. intros H. unbind H. injection H as <-. split_and!; reflexivity.
Qed.

Lemma take_slice {A} (s : list A) a b : a <= b -> take a s ++ slice s a b = take b s.
Proof.
  intros Hab. unfold slice. rewrite take_take_drop. f_equal. lia.
Qed.

Lemma slice_inverted {A} (s : list A) a b : b <= a -> slice s a b = [].
Proof. intros Hba. unfold slice. by replace (b - a) with 0 by lia. Qed.

Lemma occurs_at_head sub s i c :
  occurs_at sub s i -> head sub = Some c -> head (drop i s) = Some c.
Proof. intros [t ->] Hc. destruct sub; [discriminate | exact Hc]. Qed.

(** The plate marker and the PendingDecode marker never resolve to the
    same offset: their first characters differ. *)
Lemma plate_layers_apart text v :
  resolve text = Ok v -> plate_start v <> layers_start v.
Proof.
  intros H Heq. apply resolve_Ok in H as (_ & _ & _ & H4 & H5 & _).
  apply index_Ok in H4 as [H4 _], H5 as [H5 _]. rewrite Heq in H4.
  assert (Hp : head key_plate = Some 105%N) by (vm_compute; reflexivity).
  assert (Hl : head key_pending = Some 115%N) by (vm_compute; reflexivity).
  pose proof (occurs_at_head key_plate text _ _ H4 Hp) as E4.
  pose proof (occurs_at_head key_pending text _ _ H5 Hl) as E5.
  rewrite E4 in E5. discriminate E5.
Qed.

(** C2, as the code has it: when the markers resolve in document order,
    the five blocks together with the span from the plate marker to the
    PendingDecode marker rebuild the document; that span is never empty
    and belongs to no block. *)
Theorem blocks_cover_all_but_plate_span text v :
  resolve text = Ok v ->
  frame_cache_start v <= renderer_start v ->
  renderer_start v <= plate_start v ->
  plate_start v <= layers_start v ->
  layers_start v <= utils_start v ->
  types_block v ++ cache_block v ++ renderer_block v
    ++ slice text (plate_start v) (layers_start v)
    ++ layers_block v ++ utils_block v = text
  /\ slice text (plate_start v) (layers_start v) <> [].
Proof.
  intros H H1 H2 H3 H4.
  pose proof (plate_layers_apart _ _ H) as Hne.
  assert (H5 : utils_start v <= length text).
  { apply resolve_Ok in H as (_ & _ & _ & _ & _ & H6 & _).
    by apply index_Ok in H6 as (_ & H6 & _). }
  apply resolve_blocks in H as (-> & -> & -> & -> & -> & ->).
  split.
  - rewrite !app_assoc. rewrite !take_slice by done. apply take_drop.
  - intros Hnil. apply (f_equal length) in Hnil. unfold slice in Hnil.
    rewrite length_take, length_drop in Hnil. simpl in Hnil. lia.
Qed.

Lemma blocks_cover_all_but_plate_span_witness :
  exists v, resolve doc_in_order = Ok v
    /\ frame_cache_start v <= renderer_start v
    /\ renderer_start v <= plate_start v
    /\ plate_start v <= layers_start v
    /\ layers_start v <= utils_start v
    /\ types_block v ++ cache_block v ++ renderer_block v
         ++ slice doc_in_order (plate_start v) (layers_start v)
         ++ layers_block v ++ utils_block v = doc_in_order
    /\ slice doc_in_order (plate_start v) (layers_start v) <> [].
Proof.
  destruct (resolve doc_in_order) as [v|e] eqn:E; [|vm_compute in E; discriminate E].
  exists v. split; [reflexivity|].
  assert (Ho : frame_cache_start v <= renderer_start v
               /\ renderer_start v <= plate_start v
               /\ plate_start v <= layers_start v
               /\ layers_start v <= utils_start v).
  { vm_compute in E. injection E as <-. vm_compute. lia. }
  destruct Ho as (H1 & H2 & H3 & H4). split_and!; try assumption;
    apply (blocks_cover_all_but_plate_span doc_in_order v E H1 H2 H3 H4).
Defined.

(** C2 as stated fails: on a document with all markers in order, the five
    blocks concatenated in range order are not the document; the text of
    the plate section is in none of them. *)
Lemma blocks_do_not_cover_document :
  exists v, resolve doc_in_order = Ok v
    /\ types_block v ++ cache_block v ++ renderer_block v
         ++ layers_block v ++ utils_block v <> doc_in_order
    /\ slice doc_in_order (plate_start v) (layers_start v)
       = lit "impl PreviewRenderer {\n    fn plate_images() {}\n}\n".
Proof.
  destruct (resolve doc_in_order) as [v|e] eqn:E; [|vm_compute in E; discriminate E].
  exists v. split; [reflexivity|].
  vm_compute in E. injection E as <-. split.
  - intros H. apply (f_equal length) in H. vm_compute in H. discriminate H.
  - vm_compute. reflexivity.
Qed.

(** ** Marker resolution order *)

Lemma index_first_occurrence text key off :
  index text key = Ok off -> first_occurrence key text off.
Proof. intros H. apply index_Ok in H as (Ho & _ & Hmin). by split. Qed.

(** C3, as the code has it: every marker is resolved to the first
    occurrence of its key in the whole document, searching from offset 0
    whatever the other markers resolved to; a block whose end marker does
    not lie after its start marker is empty. *)
Theorem markers_resolve_from_document_start text v :
  resolve text = Ok v ->
  first_occurrence key_frame_cache text (frame_cache_start v)
  /\ first_occurrence key_generates text (frame_cache_impl_end v)
  /\ first_occurrence key_generates text (renderer_start v)
  /\ first_occurrence key_plate text (plate_start v)
  /\ first_occurrence key_pending text (layers_start v)
  /\ first_occurrence key_clamp text (utils_start v)
  /\ (frame_cache_impl_end v <= frame_cache_start v -> cache_block v = [])
  /\ (plate_start v <= renderer_start v -> renderer_block v = [])
  /\ (utils_start v <= layers_start v -> layers_block v = []).
Proof.
  intros H. pose proof (resolve_blocks _ _ H) as (_ & -> & -> & -> & _ & _).
  apply resolve_Ok in H as (H1 & H2 & H3 & H4 & H5 & H6 & _).
  split_and!; try (by apply index_first_occurrence); apply slice_inverted.
Qed.

Lemma markers_resolve_from_document_start_witness :
  exists v, resolve doc_swapped = Ok v
    /\ first_occurrence key_frame_cache doc_swapped (frame_cache_start v)
    /\ first_occurrence key_generates doc_swapped (frame_cache_impl_end v)
    /\ first_occurrence key_generates doc_swapped (renderer_start v)
    /\ first_occurrence key_plate doc_swapped (plate_start v)
    /\ first_occurrence key_pending doc_swapped (layers_start v)
    /\ first_occurrence key_clamp doc_swapped (utils_start v)
    /\ (frame_cache_impl_end v <= frame_cache_start v -> cache_block v = [])
    /\ (plate_start v <= renderer_start v -> renderer_block v = [])
    /\ (utils_start v <= layers_start v -> layers_block v = []).
Proof.
  destruct (resolve doc_swapped) as [v|e] eqn:E; [|vm_compute in E; discriminate E].
  exists v. split; [reflexivity|].
  exact (markers_resolve_from_document_start doc_swapped v E).
Defined.

(** C3 as stated fails: with [fn clamp_time] ahead of
    [struct PendingDecode] the offsets decrease, and the run still
    succeeds, writing a layers unit with an empty block. *)
Lemma out_of_order_markers_accepted :
  exists v, resolve doc_swapped = Ok v
    /\ utils_start v < layers_start v
    /\ layers_block v = []
    /\ fst (main (checkout doc_swapped)) = Ok tt.
Proof.
  destruct (resolve doc_swapped) as [v|e] eqn:E; [|vm_compute in E; discriminate E].
  exists v. split; [reflexivity|].
  vm_compute in E. injection E as <-. split_and!.
  - vm_compute. lia.
  - vm_compute. reflexivity.
  - vm_compute. reflexivity.
Qed.

(** ** The exception raised for a missing marker *)

Lemma next_preview_stats_Raise ls i todo e :
  next_preview_stats ls i todo = Raise e ->
  e = StopIteration \/ e = IndexError "list index out of range".
Proof.
  revert i; induction todo as [|line todo IH]; intros i; cbn [next_preview_stats].
  - intros [= <-]. by left.
  - destruct (startswith (strip line) key_derive); [|apply IH].
    unfold getitem. destruct (ls !! (i + 1)) as [n|]; cbn [rbind].
    + destruct (contains key_preview_stats n); [discriminate | apply IH].
    + intros [= <-]. by right.
Qed.

Lemma next_const_Raise i todo e : next_const i todo = Raise e -> e = StopIteration.
Proof.
  revert i; induction todo as [|line todo IH]; intros i; cbn [next_const].
  - by intros [= <-].
  - destruct (startswith line key_const); [discriminate | apply IH].
Qed.

(** Which exception [resolve] raises: [ValueError] exactly when an
    [index] key is missing, otherwise the exception of a line search. *)
Lemma resolve_Raise text e :
  resolve text = Raise e ->
  (e = ValueError "substring not found" /\ exists k, k ∈ index_keys /\ ~ occurs k text)
  \/ ((forall k, k ∈ index_keys -> occurs k text)
      /\ (e = StopIteration \/ e = IndexError "list index out of range")).
Proof.
  assert (Hmissing : forall k e', k ∈ index_keys -> index text k = Raise e' ->
            e' = ValueError "substring not found"
            /\ exists k, k ∈ index_keys /\ ~ occurs k text).
  { intros k e' Hin He'. apply index_Raise in He' as [Hno ->]. split; [reflexivity|].
    exists k. by split. }
  unfold resolve.
  destruct (index text key_frame_cache) as [a1|e1] eqn:E1; cbn [rbind];
    [|intros [= <-]; left; apply (Hmissing key_frame_cache); [|exact E1];
      apply list_elem_of_here].
  destruct (index text key_generates) as [a2|e2] eqn:E2; cbn [rbind];
    [|intros [= <-]; left; apply (Hmissing key_generates); [|exact E2];
      apply list_elem_of_further, list_elem_of_here].
  destruct (index text key_plate) as [a3|e3] eqn:E3; cbn [rbind];
    [|intros [= <-]; left; apply (Hmissing key_plate); [|exact E3];
      do 3 apply list_elem_of_further; apply list_elem_of_here].
  destruct (index text key_pending) as [a4|e4] eqn:E4; cbn [rbind];
    [|intros [= <-]; left; apply (Hmissing key_pending); [|exact E4];
      do 4 apply list_elem_of_further; apply list_elem_of_here].
  destruct (index text key_clamp) as [a5|e5] eqn:E5; cbn [rbind];
    [|intros [= <-]; left; apply (Hmissing key_clamp); [|exact E5];
      do 5 apply list_elem_of_further; apply list_elem_of_here].
  clear Hmissing.
  intros H. right. split.
  - apply index_Ok in E1 as [E1 _], E2 as [E2 _], E3 as [E3 _], E4 as [E4 _], E5 as [E5 _].
    intros k Hk. unfold index_keys in Hk. rewrite !elem_of_cons, elem_of_nil in Hk.
    destruct Hk as [->|[->|[->|[->|[->|[->|[]]]]]]].
    + exact (ex_intro _ _ E1).
    + exact (ex_intro _ _ E2).
    + exact (ex_intro _ _ E2).
    + exact (ex_intro _ _ E3).
    + exact (ex_intro _ _ E4).
    + exact (ex_intro _ _ E5).
  - destruct (next_preview_stats _ 0 _) as [p|ep] eqn:Ep; cbn [rbind] in H.
    + destruct (next_const 0 _) as [c|ec] eqn:Ec; cbn [rbind] in H; [discriminate H|].
      injection H as <-. left. by apply next_const_Raise in Ec.
    + injection H as <-. by apply next_preview_stats_Raise in Ep.
Qed.

(** C4 as stated fails: the exception raised for a missing marker is
    Python's [ValueError] with the fixed message, not a MarkerNotFound
    carrying the marker's name. *)
Lemma missing_marker_error_is_unnamed :
  ~ occurs key_frame_cache doc_no_markers
  /\ exists e, fst (main (checkout doc_no_markers)) = Raise e
       /\ exn_class e <> "MarkerNotFound"%string
       /\ exn_args e = ["substring not found"%string].
Proof.
  split.
  - apply find_None. vm_compute. reflexivity.
  - exists (ValueError "substring not found"). split_and!.
    + vm_compute. reflexivity.
    + vm_compute. discriminate.
    + reflexivity.
Qed.

(** ** Stripping *)

Lemma islinebreak_isspace c : islinebreak c = true -> isspace c = true.
Proof.
  unfold islinebreak, isspace.
  rewrite !orb_true_iff, !andb_true_iff, !N.leb_le, !N.eqb_eq. lia.
Qed.

Lemma lstrip_spec s :
  exists pre, s = pre ++ lstrip s
              /\ Forall (fun c => isspace c = true) pre
              /\ forall c r, lstrip s = c :: r -> isspace c = false.
Proof.
  induction s as [|c s (pre & Hs & Hpre & Hhead)]; simpl.
  - exists []. split_and!; [done | constructor | discriminate].
  - destruct (isspace c) eqn:Hc.
    + exists (c :: pre). split_and!; [by rewrite Hs at 1 | by constructor | done].
    + exists []. split_and!; [done | constructor |]. by intros ? ? [= <- <-].
Qed.

(** [strip] keeps a contiguous part of its argument: what it drops on
    either side is white space, and what it keeps neither starts nor ends
    with white space. *)
Lemma strip_spec s :
  exists pre post,
    s = pre ++ strip s ++ post
    /\ Forall (fun c => isspace c = true) pre
    /\ Forall (fun c => isspace c = true) post
    /\ (forall c r, strip s = c :: r -> isspace c = false)
    /\ (forall c r, rev (strip s) = c :: r -> isspace c = false).
Proof.
  destruct (lstrip_spec s) as (pre & Hs & Hpre & Hhead).
  destruct (lstrip_spec (rev (lstrip s))) as (tl & Hr & Htl & Hlast).
  exists pre, (rev tl).
  assert (Hm : lstrip s = strip s ++ rev tl).
  { unfold strip, rstrip. rewrite <- rev_app_distr, <- Hr. by rewrite rev_involutive. }
  split_and!.
  - by rewrite <- Hm.
  - done.
  - by apply Forall_rev.
  - intros c r Hc. rewrite Hc in Hm. by apply (Hhead c (r ++ rev tl)).
  - intros c r Hc. unfold strip, rstrip in Hc. rewrite rev_involutive in Hc. by apply (Hlast c r).
Qed.

Lemma stripped_then_newline h s :
  strip s <> [] -> ends_with_one_newline (h ++ strip s ++ [LF]) = true.
Proof.
  intros Hne. destruct (strip_spec s) as (_ & _ & _ & _ & _ & _ & Hlast).
  unfold ends_with_one_newline. rewrite !rev_app_distr. simpl.
  destruct (rev (strip s)) as [|c r] eqn:Hr.
  - exfalso. apply Hne. apply (f_equal (@rev N)) in Hr. by rewrite rev_involutive in Hr.
  - simpl. specialize (Hlast c r eq_refl).
    destruct (islinebreak c) eqn:Hc; [|done].
    apply islinebreak_isspace in Hc. congruence.
Qed.

Lemma strip_nil_iff s : strip s = [] <-> Forall (fun c => isspace c = true) s.
Proof.
  destruct (strip_spec s) as (pre & post & Hs & Hpre & Hpost & Hhead & _). split.
  - intros Hnil. rewrite Hs, Hnil. simpl. by apply Forall_app.
  - intros Hall. destruct (strip s) as [|c r] eqn:E; [done|].
    rewrite Hs in Hall. apply Forall_app in Hall as [_ Hall].
    apply Forall_app in Hall as [Hall _]. apply Forall_cons in Hall as [Hc _].
    rewrite (Hhead c r eq_refl) in Hc. discriminate Hc.
Qed.

Lemma strip_app_nonempty s t : strip s <> [] -> strip (s ++ t) <> [].
Proof.
  intros Hne Hnil. apply Hne. apply strip_nil_iff.
  apply strip_nil_iff in Hnil. by apply Forall_app in Hnil as [Hs _].
Qed.

Lemma join_cons sep l ls : exists t, join sep (l :: ls) = l ++ t.
Proof.
  destruct ls as [|l' ls]; simpl.
  - exists []. by rewrite app_nil_r.
  - by eexists.
Qed.

(** ** Composition of the unit bodies *)

Lemma composed_with_header_intro header block :
  ends_with_blank_line header = true ->
  composed_with_header (header, block, header ++ strip block ++ [LF]).
Proof.
  intros Hh. destruct (strip_spec block) as (pre & post & Hs & Hpre & Hpost & Hhead & _).
  split_and!; [done | done | by exists pre, post |].
  intros Hne. split; [by apply stripped_then_newline|].
  destruct (strip block) as [|c r] eqn:E; [done|]. exists c, r. split; [done|].
  by apply (Hhead c r).
Qed.

Lemma type_block_nonempty text v : resolve text = Ok v -> type_block v <> [].
Proof.
  intros H.
  assert (Ht : type_block v = strip (join [LF] (drop (preview_stats_idx v) (lines v)))).
  { unfold resolve in H. unbind H. by injection H as <-. }
  apply resolve_Ok in H as (_ & _ & _ & _ & _ & _ & _ & Hp & _).
  apply (next_preview_stats_Ok (lines v)) in Hp as (_ & (l & n & Hl & _ & Hd & _) & _); [|done].
  rewrite Ht, (drop_S _ _ _ Hl).
  destruct (join_cons [LF] l (drop (S (preview_stats_idx v)) (lines v))) as [t ->].
  apply strip_app_nonempty. intros Hnil. rewrite Hnil in Hd.
  assert (Hk : head key_derive = Some 35%N) by (vm_compute; reflexivity).
  apply startswith_spec in Hd as [u Hu]. destruct key_derive; [discriminate Hk | discriminate Hu].
Qed.

Lemma strip_idempotent s : strip (strip s) = strip s.
Proof.
  destruct (strip_spec s) as (_ & _ & _ & _ & _ & Hhead & Hlast).
  set (m := strip s) in *.
  destruct (strip_spec m) as (pre & post & Hm & Hpre & Hpost & _ & _).
  destruct pre as [|c pre].
  - destruct post as [|d post _] using rev_ind; [by rewrite app_nil_r in Hm|].
    exfalso. apply Forall_app in Hpost as [_ Hd]. apply Forall_cons in Hd as [Hd _].
    rewrite Hm in Hlast. simpl in Hlast. rewrite !rev_app_distr in Hlast. simpl in Hlast.
    rewrite (Hlast d _ eq_refl) in Hd. discriminate Hd.
  - exfalso. apply Forall_cons in Hpre as [Hc _].
    rewrite Hm in Hhead. simpl in Hhead. rewrite (Hhead c _ eq_refl) in Hc. discriminate Hc.
Qed.

Lemma resolve_types_blocks text v :
  resolve text = Ok v ->
  const_block v = strip (join [LF] (slice (lines v) (const_start v) (preview_stats_idx v)))
  /\ type_block v = strip (join [LF] (drop (preview_stats_idx v) (lines v))).
Proof. intros H. unfold resolve in H. unbind H. by injection H as <-. Qed.

(** C5, as the code has it: each of the cache, renderer, layers and utils
    bodies is its header (a literal that ends with one blank line)
    followed by the block cut down by [strip] and one line feed; when the
    stripped block is not empty the body ends with exactly one line feed.
    The types body has no header: it is the stripped constants lines with
    a line feed (when there are any), the stripped type lines and a line
    feed, and it ends with exactly one line feed. *)
Theorem unit_bodies_as_composed text v :
  resolve text = Ok v ->
  Forall composed_with_header (header_units v)
  /\ types_rs v
     = match const_block v with
       | [] => []
       | _ :: _ => const_block v ++ [LF]
       end ++ type_block v ++ [LF]
  /\ const_block v
     = strip (join [LF] (slice (lines v) (const_start v) (preview_stats_idx v)))
  /\ type_block v = strip (join [LF] (drop (preview_stats_idx v) (lines v)))
  /\ ends_with_one_newline (types_rs v) = true.
Proof.
  intros H. pose proof (resolve_types_blocks _ _ H) as [Hc Ht]. split_and!.
  - unfold header_units. repeat apply Forall_cons_2; [| | | |apply Forall_nil_2].
    + apply (composed_with_header_intro cache_header (cache_block v)). vm_compute. reflexivity.
    + apply (composed_with_header_intro renderer_header (renderer_block v)).
      vm_compute. reflexivity.
    + apply (composed_with_header_intro layers_header (layers_block v)). vm_compute. reflexivity.
    + apply (composed_with_header_intro utils_header (utils_block v)). vm_compute. reflexivity.
  - reflexivity.
  - exact Hc.
  - exact Ht.
  - pose proof (type_block_nonempty _ _ H) as Hne.
    assert (Hs : type_block v = strip (type_block v)).
    { rewrite Ht at 2. rewrite strip_idempotent. exact Ht. }
    unfold types_rs. rewrite Hs. apply stripped_then_newline. by rewrite <- Hs.
Qed.

Lemma unit_bodies_as_composed_witness :
  exists v, resolve doc_in_order = Ok v
    /\ Forall composed_with_header (header_units v)
    /\ types_rs v
       = match const_block v with
         | [] => []
         | _ :: _ => const_block v ++ [LF]
         end ++ type_block v ++ [LF]
    /\ const_block v
       = strip (join [LF] (slice (lines v) (const_start v) (preview_stats_idx v)))
    /\ type_block v = strip (join [LF] (drop (preview_stats_idx v) (lines v)))
    /\ ends_with_one_newline (types_rs v) = true.
Proof.
  destruct (resolve doc_in_order) as [v|e] eqn:E; [|vm_compute in E; discriminate E].
  exists v. split; [reflexivity|].
  exact (unit_bodies_as_composed doc_in_order v E).
Defined.

(** C5 as stated fails.  On a document with all markers in order, no
    header makes the types body equal to header, blank line, stripped
    types block and line feed: the body is shorter than the stripped
    block alone, the leading [use] line being left out.  With
    [fn clamp_time] ahead of [struct PendingDecode], the layers body is
    the header followed by a line feed and ends with three line feeds. *)
Lemma types_unit_is_not_header_and_block :
  (exists v, resolve doc_in_order = Ok v
     /\ ~ exists header,
          types_rs v = header ++ lit "\n" ++ strip (types_block v) ++ lit "\n")
  /\ (exists v, resolve doc_swapped = Ok v
        /\ layers_rs v = layers_header ++ lit "\n"
        /\ ends_with_one_newline (layers_rs v) = false).
Proof.
  split.
  - destruct (resolve doc_in_order) as [v|e] eqn:E; [|vm_compute in E; discriminate E].
    exists v. split; [reflexivity|].
    vm_compute in E. injection E as <-.
    match goal with
    | |- ~ exists header, ?body = header ++ _ ++ strip ?block ++ _ =>
        assert (Hl : length body < length (strip block)) by (vm_compute; lia)
    end.
    intros [header Hh]. apply (f_equal length) in Hh. rewrite !length_app in Hh. lia.
  - destruct (resolve doc_swapped) as [v|e] eqn:E; [|vm_compute in E; discriminate E].
    exists v. split; [reflexivity|].
    vm_compute in E. injection E as <-. split; vm_compute; reflexivity.
Qed.

(** ** The trace of a run *)

Global Opaque mod_rs cache_header renderer_header layers_header utils_header.

Lemma mkdir_exist_ok_logs p : logs (mkdir_exist_ok p) (EvMkdir p).
Proof.
  intros w. unfold mkdir_exist_ok.
  destruct (files w !! (cwd w ++ p)) as [[c|]|]; [right; by eexists | left; by eexists |].
  destruct (files w !! parent (cwd w ++ p)) as [[c|]|];
    [right; by eexists | left; by eexists | right; by eexists].
Qed.

Lemma write_text_logs p data : logs (write_text p data) (EvWrite p data).
Proof.
  intros w. unfold write_text.
  destruct (files w !! (cwd w ++ p)) as [[c|]|]; [|right; by eexists|];
    (destruct (files w !! parent (cwd w ++ p)) as [[c'|]|];
       [right; by eexists | left; by eexists | right; by eexists]).
Qed.

Lemma unlink_missing_ok_logs p : logs (unlink_missing_ok p) (EvUnlink p).
Proof.
  intros w. unfold unlink_missing_ok.
  destruct (files w !! (cwd w ++ p)) as [[c|]|];
    [left; by eexists | right; by eexists | left; by eexists].
Qed.

Lemma sequence_cons a rest w :
  sequence (a :: rest) w
  = match a w with
    | (Ok _, w1) => sequence rest w1
    | (Raise e, w1) => (Raise e, w1)
    end.
Proof.
  destruct rest as [|b rest]; [|reflexivity].
  simpl. destruct (a w) as [[[]|e] w1]; reflexivity.
Qed.

(** The log grows by a prefix of the actions' events, all of them exactly
    when the chain returns. *)
Lemma sequence_trace acts evs :
  Forall2 logs acts evs ->
  forall w r w', sequence acts w = (r, w') ->
    exists n, n <= length evs
              /\ log w' = log w ++ take n evs
              /\ (r = Ok tt <-> n = length evs).
Proof.
  induction 1 as [|a ev acts evs Ha _ IH]; intros w r w' Hrun.
  - injection Hrun as <- <-. exists 0. split_and!; [done | by rewrite app_nil_r | done].
  - rewrite sequence_cons in Hrun.
    destruct (Ha w) as [(w1 & Hw1 & Hlog & _) | (e & He)].
    + rewrite Hw1 in Hrun. destruct (IH _ _ _ Hrun) as (n & Hn & Hlog' & Hr).
      exists (S n). split_and!; [simpl; lia | |].
      * rewrite Hlog', Hlog. simpl. by rewrite <- app_assoc.
      * rewrite Hr. simpl. lia.
    + rewrite He in Hrun. injection Hrun as <- <-.
      exists 0. split_and!; [lia | by rewrite app_nil_r |]. simpl. split; [discriminate | lia].
Qed.

(** What [main] logs: nothing when it fails before [mkdir], and otherwise
    a prefix of [full_events] for the variables resolved from the
    document it read; the whole of it exactly when the run returns. *)
Lemma main_trace w r w' :
  main w = (r, w') ->
  (log w' = log w /\ exists e, r = Raise e)
  \/ (exists text v n,
        files w !! (repo_dir ++ preview_rs) = Some (File text)
        /\ resolve text = Ok v
        /\ n <= 8
        /\ log w' = log w ++ take n (full_events v)
        /\ (r = Ok tt <-> n = 8)).
Proof.
  unfold main, bind at 1. unfold chdir.
  destruct (files w !! repo_dir) as [[c|]|];
    [intros [= <- <-]; left; by eauto | | intros [= <- <-]; left; by eauto].
  unfold bind at 1. unfold read_text. cbn [cwd files].
  destruct (files w !! (repo_dir ++ preview_rs)) as [[text|]|] eqn:Hf;
    [| intros [= <- <-]; left; by eauto | intros [= <- <-]; left; by eauto].
  unfold bind at 1. unfold lift.
  destruct (resolve text) as [v|e] eqn:Hv; [|intros [= <- <-]; left; by eauto].
  intros Hrun. right. exists text, v.
  change (sequence [mkdir_exist_ok preview_dir;
                    write_text (unit_path "mod.rs") mod_rs;
                    write_text (unit_path "types.rs") (types_rs v);
                    write_text (unit_path "cache.rs") (cache_rs v);
                    write_text (unit_path "renderer.rs") (renderer_rs v);
                    write_text (unit_path "layers.rs") (layers_rs v);
                    write_text (unit_path "utils.rs") (utils_rs v);
                    unlink_missing_ok preview_rs]
            {| cwd := repo_dir; files := files w; log := log w |} = (r, w')) in Hrun.
  eapply (sequence_trace _ (full_events v)) in Hrun as (n & Hn & Hlog & Hr).
  - exists n. split_and!; done.
  - unfold full_events.
    repeat first [ apply Forall2_nil_2
                 | apply Forall2_cons_2;
                   [first [apply mkdir_exist_ok_logs | apply write_text_logs
                          | apply unlink_missing_ok_logs]|] ].
Qed.

Lemma trace_spec w :
  (trace w = [] /\ exists e, (main w).1 = Raise e)
  \/ (exists text v n,
        files w !! (repo_dir ++ preview_rs) = Some (File text)
        /\ resolve text = Ok v
        /\ n <= 8
        /\ trace w = take n (full_events v)
        /\ ((main w).1 = Ok tt <-> n = 8)).
Proof.
  unfold trace. destruct (main w) as [r w'] eqn:Hrun.
  apply main_trace in Hrun as [[Hlog He] | (text & v & n & Hf & Hv & Hn & Hlog & Hr)];
    cbn [fst snd]; rewrite Hlog.
  - left. split; [by rewrite drop_ge | done].
  - right. exists text, v, n. split_and!; try done. by rewrite drop_app_length.
Qed.

(** Anything a run logs comes after boundary resolution has succeeded on
    the document it read. *)
Lemma resolution_precedes_effects w :
  trace w <> [] ->
  exists text v, files w !! (repo_dir ++ preview_rs) = Some (File text)
                 /\ resolve text = Ok v.
Proof.
  intros Hne.
  destruct (trace_spec w) as [[Hnil _] | (text & v & n & Hf & Hv & _)]; [done|].
  by exists text, v.
Qed.

Lemma elem_of_written evs p data : EvWrite p data ∈ evs <-> (p, data) ∈ written evs.
Proof.
  unfold written. rewrite list_elem_of_omap. split.
  - intros H. by exists (EvWrite p data).
  - intros ([q|q d|q] & Hin & Hw); simplify_eq/=. done.
Qed.

Lemma written_full_events v :
  written (full_events v)
  = [ (unit_path "mod.rs", mod_rs);
      (unit_path "types.rs", types_rs v);
      (unit_path "cache.rs", cache_rs v);
      (unit_path "renderer.rs", renderer_rs v);
      (unit_path "layers.rs", layers_rs v);
      (unit_path "utils.rs", utils_rs v) ].
Proof. reflexivity. Qed.

Lemma written_paths_distinct v : NoDup (written (full_events v)).*1.
Proof. rewrite written_full_events. apply (bool_decide_unpack _). vm_compute. exact I. Qed.

Lemma writes_functional (l : list (path * str)) p d1 d2 :
  NoDup l.*1 -> (p, d1) ∈ l -> (p, d2) ∈ l -> d1 = d2.
Proof.
  intros Hnd H1 H2.
  apply (elem_of_list_to_map (M := gmap path) l p d1 Hnd) in H1.
  apply (elem_of_list_to_map (M := gmap path) l p d2 Hnd) in H2. congruence.
Qed.

(** ** Determinism of the unit texts *)

(** C8: two runs whose worlds hold the same document write the same text
    under each unit name, whatever else the two worlds contain; when both
    runs return they log the same writes. *)
Theorem unit_texts_determined_by_document w1 w2 text :
  holds_document w1 text -> holds_document w2 text ->
  (forall p d1 d2, EvWrite p d1 ∈ trace w1 -> EvWrite p d2 ∈ trace w2 -> d1 = d2)
  /\ ((main w1).1 = Ok tt -> (main w2).1 = Ok tt -> trace w1 = trace w2).
Proof.
  intros [_ Hf1] [_ Hf2].
  destruct (trace_spec w1) as [[Ht1 [e1 He1]] | (t1 & v1 & n1 & Hd1 & Hv1 & Hn1 & Ht1 & Hr1)];
    [rewrite Ht1; split; [intros p d1 d2 H; by apply elem_of_nil in H | congruence]|].
  destruct (trace_spec w2) as [[Ht2 [e2 He2]] | (t2 & v2 & n2 & Hd2 & Hv2 & Hn2 & Ht2 & Hr2)];
    [rewrite Ht2; split; [intros p d1 d2 _ H; by apply elem_of_nil in H | congruence]|].
  assert (t1 = text) as -> by congruence. assert (t2 = text) as -> by congruence.
  assert (v2 = v1) as -> by congruence.
  rewrite Ht1, Ht2. split.
  - intros p d1 d2 H1 H2.
    apply (subseteq_take n1), elem_of_written in H1.
    apply (subseteq_take n2), elem_of_written in H2.
    exact (writes_functional _ p d1 d2 (written_paths_distinct v1) H1 H2).
  - intros R1 R2. apply Hr1 in R1. apply Hr2 in R2. by subst.
Qed.

Lemma checkout_blocked_holds text : holds_document (checkout_blocked text) text.
Proof. split; vm_compute; reflexivity. Qed.

Example checkout_blocked_run :
  (main (checkout_blocked doc_in_order)).1 = Raise IsADirectoryError
  /\ trace (checkout_blocked doc_in_order)
     = [EvMkdir preview_dir; EvWrite (unit_path "mod.rs") mod_rs].
Proof. split; vm_compute; reflexivity. Qed.

Lemma unit_texts_determined_by_document_witness :
  holds_document (checkout doc_in_order) doc_in_order
  /\ holds_document (checkout_blocked doc_in_order) doc_in_order
  /\ (forall p d1 d2,
        EvWrite p d1 ∈ trace (checkout doc_in_order) ->
        EvWrite p d2 ∈ trace (checkout_blocked doc_in_order) -> d1 = d2)
  /\ ((main (checkout doc_in_order)).1 = Ok tt ->
      (main (checkout_blocked doc_in_order)).1 = Ok tt ->
      trace (checkout doc_in_order) = trace (checkout_blocked doc_in_order)).
Proof.
  split; [apply checkout_holds|]. split; [apply checkout_blocked_holds|].
  exact (unit_texts_determined_by_document
           (checkout doc_in_order) (checkout_blocked doc_in_order) doc_in_order
           (checkout_holds doc_in_order) (checkout_blocked_holds doc_in_order)).
Defined.

(** ** Order of the writes and of the unlink *)

Lemma full_events_split v :
  full_events v = events_before_unlink v ++ [EvUnlink preview_rs].
Proof. reflexivity. Qed.

Lemma events_before_unlink_no_unlink v :
  Forall (fun ev => ~ is_unlink ev) (events_before_unlink v).
Proof.
  unfold events_before_unlink.
  repeat first [apply Forall_nil_2 | apply Forall_cons_2; [intros [p Hp]; discriminate Hp|]].
Qed.

Lemma split_at_only_match {A} (P : A -> Prop) (l : list A) y pre x post :
  Forall (fun a => ~ P a) l -> P x ->
  l ++ [y] = pre ++ x :: post -> pre = l /\ x = y /\ post = [].
Proof.
  intros Hl Hx. revert pre; induction Hl as [|a l Ha Hl IH]; intros pre Heq.
  - destruct pre as [|b pre]; simpl in Heq.
    + by injection Heq as <- <-.
    + injection Heq as _ Heq. by destruct pre.
  - destruct pre as [|b pre]; simpl in Heq.
    + injection Heq as <- _. done.
    + injection Heq as <- Heq. destruct (IH _ Heq) as (-> & -> & ->). done.
Qed.

(** C10: in the events of any run, an unlink is the unlink of
    [src/core/preview.rs], it is the last event, and the [mkdir] and the
    six writes (mod, types, cache, renderer, layers, utils) are exactly
    the events before it; and unlinking a path that is absent returns
    normally and leaves the files as they are. *)
Theorem unlink_after_all_writes w w0 :
  (forall pre p post,
     trace w = pre ++ EvUnlink p :: post ->
     p = preview_rs /\ post = [] /\ (main w).1 = Ok tt
     /\ exists v, pre = events_before_unlink v)
  /\ (files w0 !! (cwd w0 ++ preview_rs) = None ->
      exists w1, unlink_missing_ok preview_rs w0 = (Ok tt, w1) /\ files w1 = files w0).
Proof.
  split.
  - intros pre p post Ht.
    destruct (trace_spec w) as [[Hnil _] | (text & v & n & _ & _ & Hn & Htr & Hr)].
    { rewrite Hnil in Ht. by destruct pre. }
    rewrite Htr, full_events_split in Ht.
    destruct (decide (n = 8)) as [->|Hne].
    + rewrite take_ge in Ht by (rewrite length_app; simpl; lia).
      apply (split_at_only_match is_unlink) in Ht as (-> & [= ->] & ->);
        [| apply events_before_unlink_no_unlink | by exists p].
      split_and!; [done | done | by apply Hr | by exists v].
    + exfalso. rewrite take_app_le in Ht by (simpl; lia).
      pose proof (events_before_unlink_no_unlink v) as Hall.
      apply (Forall_take _ n) in Hall. rewrite Ht in Hall.
      apply Forall_app in Hall as [_ Hall]. apply Forall_cons in Hall as [Hall _].
      apply Hall. by exists p.
  - intros Hnone. unfold unlink_missing_ok. rewrite Hnone. by eexists.
Qed.

Lemma unlink_after_all_writes_witness :
  let w := checkout doc_in_order in
  trace w = take 7 (trace w) ++ EvUnlink preview_rs :: []
  /\ (main w).1 = Ok tt
  /\ (exists v, take 7 (trace w) = events_before_unlink v)
  /\ files world_without_document !! (cwd world_without_document ++ preview_rs) = None
  /\ exists w1, unlink_missing_ok preview_rs world_without_document = (Ok tt, w1)
                /\ files w1 = files world_without_document.
Proof.
  intros w.
  assert (Ht : trace w = take 7 (trace w) ++ EvUnlink preview_rs :: [])
    by (vm_compute; reflexivity).
  assert (Hn : files world_without_document !! (cwd world_without_document ++ preview_rs)
               = None) by (vm_compute; reflexivity).
  destruct (unlink_after_all_writes w world_without_document) as [Hlast Habsent].
  destruct (Hlast _ _ _ Ht) as (_ & _ & Hok & Hpre).
  split_and!; [exact Ht | exact Hok | exact Hpre | exact Hn | exact (Habsent Hn)].
Defined.

(** ** The manifest *)

Example split_off_units_order v :
  split_off_units v = [lit "types"; lit "cache"; lit "renderer"; lit "layers"; lit "utils"].
Proof. vm_compute. reflexivity. Qed.

(** C6, as the code has it: the manifest is a literal; it declares and
    re-exports exactly the five split-off units, every declaration line
    coming before the re-export line of its unit, and both lists are in
    the fixed order renderer, cache, layers, types, utils, whatever the
    document and the order in which the units are composed and written. *)
Theorem manifest_declares_and_reexports v :
  written (full_events v) !! 0 = Some (unit_path "mod.rs", mod_rs)
  /\ declared_units mod_rs
     = [lit "renderer"; lit "cache"; lit "layers"; lit "types"; lit "utils"]
  /\ reexported mod_rs
     = [ (lit "renderer", lit "PreviewRenderer");
         (lit "cache", lit "{FrameCache, CachedFrame}");
         (lit "layers", lit "{PreviewLayer, PreviewLayerStack, PreviewLayerGpu}");
         (lit "types", lit "*");
         (lit "utils", lit "*") ]
  /\ split_off_units v ≡ₚ declared_units mod_rs
  /\ Forall (declared_then_reexported mod_rs) (split_off_units v).
Proof.
  split_and!.
  - reflexivity.
  - vm_compute. reflexivity.
  - vm_compute. reflexivity.
  - rewrite split_off_units_order.
    replace (declared_units mod_rs)
      with [lit "renderer"; lit "cache"; lit "layers"; lit "types"; lit "utils"]
      by (vm_compute; reflexivity).
    apply (bool_decide_unpack _). vm_compute. exact I.
  - rewrite split_off_units_order.
    repeat first [apply Forall_nil_2 | apply Forall_cons_2].
    + exists 7, 13, (lit "*"). split_and!; [vm_compute; reflexivity.. | lia].
    + exists 5, 11, (lit "{FrameCache, CachedFrame}").
      split_and!; [vm_compute; reflexivity.. | lia].
    + exists 4, 10, (lit "PreviewRenderer"). split_and!; [vm_compute; reflexivity.. | lia].
    + exists 6, 12, (lit "{PreviewLayer, PreviewLayerStack, PreviewLayerGpu}").
      split_and!; [vm_compute; reflexivity.. | lia].
    + exists 8, 14, (lit "*"). split_and!; [vm_compute; reflexivity.. | lia].
Qed.

(** C6 as stated fails: the declarations of the manifest are neither in
    the order in which the units are composed and written nor in the
    order in which their blocks are sliced. *)
Lemma manifest_order_differs_from_unit_order :
  exists v, resolve doc_in_order = Ok v
    /\ split_off_units v
       = [lit "types"; lit "cache"; lit "renderer"; lit "layers"; lit "utils"]
    /\ declared_units mod_rs
       = [lit "renderer"; lit "cache"; lit "layers"; lit "types"; lit "utils"]
    /\ declared_units mod_rs <> split_off_units v
    /\ declared_units mod_rs <> units_in_block_order.
Proof.
  destruct (resolve doc_in_order) as [v|e] eqn:E; [|vm_compute in E; discriminate E].
  exists v. split; [reflexivity|]. split_and!.
  - vm_compute. reflexivity.
  - vm_compute. reflexivity.
  - rewrite split_off_units_order. vm_compute. discriminate.
  - vm_compute. discriminate.
Qed.

(** ** Re-exported symbols *)



(** ** Text before the constants line *)

Lemma index_app_ge pre rest key o :
  index (pre ++ rest) key = Ok o -> length pre <= o ->
  index rest key = Ok (o - length pre).
Proof.
  intros H Hle. apply index_Ok in H as ([t Ht] & Hlen & Hmin). apply index_Ok.
  rewrite length_app in Hlen. split_and!.
  - exists t. by rewrite <- Ht, drop_app_ge.
  - lia.
  - intros j Hj [u Hu]. apply (Hmin (length pre + j)); [lia|].
    exists u. rewrite drop_app_ge by lia. by replace (length pre + j - length pre) with j by lia.
Qed.

Lemma slice_app_ge {A} (pre rest : list A) a b :
  length pre <= a -> slice (pre ++ rest) a b = slice rest (a - length pre) (b - length pre).
Proof.
  intros Hle. unfold slice. rewrite drop_app_ge by done. f_equal. lia.
Qed.

Lemma splitlines_nil s : splitlines s = [] -> s = [].
Proof.
  destruct s as [|c s]; [done|]. simpl.
  destruct (islinebreak c); [discriminate|]. by destruct (splitlines s).
Qed.

Lemma splitlines_app_bounded n pre s :
  length pre <= n -> ends_line pre -> head s <> Some LF ->
  splitlines (pre ++ s) = splitlines pre ++ splitlines s.
Proof.
  revert pre; induction n as [|n IH]; intros pre Hn Hend Hs.
  { destruct pre; [done | simpl in Hn; lia]. }
  destruct pre as [|c pre]; [done|]. simpl in Hn.
  assert (Htail : pre <> [] -> ends_line pre).
  { intros Hne. destruct pre as [|d pre]; [done|]. exact Hend. }
  rewrite <- app_comm_cons. destruct (islinebreak c) eqn:Hc.
  - simpl. rewrite Hc. simpl. f_equal. destruct (c =? CR)%N.
    + destruct pre as [|d pre].
      * simpl. destruct s as [|d s]; [done|].
        destruct (d =? LF)%N eqn:Hd; [|done].
        apply N.eqb_eq in Hd. subst d. by destruct Hs.
      * rewrite <- app_comm_cons. simpl in Hn. destruct (d =? LF)%N.
        -- apply IH; [lia | | done]. destruct pre as [|d' pre]; [done|].
           specialize (Htail ltac:(done)). exact Htail.
        -- apply (IH (d :: pre)); [simpl; lia | by apply Htail | done].
    + destruct pre as [|d pre]; [done|].
      apply (IH (d :: pre)); [simpl in *; lia | by apply Htail | done].
  - destruct pre as [|d pre].
    { simpl in Hend. congruence. }
    rewrite !splitlines_cons_char by done.
    rewrite (IH (d :: pre)) by (simpl in *; first [lia | by apply Htail | done]).
    destruct (splitlines (d :: pre)) as [|l ls] eqn:Hl; [|done].
    by apply splitlines_nil in Hl.
Qed.

Lemma splitlines_app pre s :
  ends_line pre -> head s <> Some LF ->
  splitlines (pre ++ s) = splitlines pre ++ splitlines s.
Proof. by apply (splitlines_app_bounded (length pre)). Qed.

Lemma next_preview_stats_skip ls X Y i k :
  next_preview_stats ls i (X ++ Y) = Ok k -> i + length X <= k ->
  next_preview_stats ls (i + length X) Y = Ok k.
Proof.
  revert i; induction X as [|x X IH]; intros i Hrun Hk.
  - by rewrite Nat.add_0_r.
  - simpl in Hk. replace (i + length (x :: X)) with (S i + length X) by (simpl; lia).
    rewrite <- app_comm_cons in Hrun. cbn [next_preview_stats] in Hrun.
    destruct (startswith (strip x) key_derive).
    + destruct (getitem ls (i + 1)) as [n|e]; cbn [rbind] in Hrun; [|discriminate Hrun].
      destruct (contains key_preview_stats n).
      * injection Hrun as <-. lia.
      * apply IH; [done | lia].
    + apply IH; [done | lia].
Qed.

(** Searching the lines of [B] inside [A ++ B], from the start of [B]. *)
Lemma next_preview_stats_shift (A B : list str) todo i :
  next_preview_stats (A ++ B) (length A + i) todo
  = rbind (next_preview_stats B i todo) (fun k => Ok (length A + k)).
Proof.
  revert i; induction todo as [|line todo IH]; intros i; [done|].
  cbn [next_preview_stats].
  assert (Hget : getitem (A ++ B) (length A + i + 1) = getitem B (i + 1)).
  { unfold getitem. rewrite lookup_app_r by lia.
    by replace (length A + i + 1 - length A) with (i + 1) by lia. }
  rewrite Hget. replace (S (length A + i)) with (length A + S i) by lia.
  destruct (startswith (strip line) key_derive); [|apply IH].
  destruct (getitem B (i + 1)) as [n|e]; cbn [rbind]; [|done].
  destruct (contains key_preview_stats n); [done | apply IH].
Qed.

Lemma next_preview_stats_app (A B : list str) k :
  next_preview_stats (A ++ B) 0 (A ++ B) = Ok k -> length A <= k ->
  next_preview_stats B 0 B = Ok (k - length A).
Proof.
  intros Hrun Hk. apply next_preview_stats_skip in Hrun; [|simpl; lia].
  simpl in Hrun. rewrite <- (Nat.add_0_r (length A)) in Hrun.
  rewrite next_preview_stats_shift in Hrun.
  destruct (next_preview_stats B 0 B) as [j|e]; cbn [rbind] in Hrun; [|discriminate Hrun].
  injection Hrun as <-. f_equal. lia.
Qed.

(** A key that starts and ends with something other than white space
    survives [strip] at the head of a text. *)
Lemma strip_keeps_prefix x key a z :
  head key = Some a -> isspace a = false ->
  last key = Some z -> isspace z = false ->
  startswith x key = true -> startswith (strip x) key = true.
Proof.
  intros Ha Hsa Hz Hsz Hx. apply startswith_spec in Hx as [u Hu].
  assert (Hl : lstrip x = x).
  { subst x. destruct key as [|a' key]; [discriminate Ha|].
    injection Ha as ->. simpl. by rewrite Hsa. }
  destruct (strip_spec x) as (pre & post & Hs & Hpre & Hpost & _ & _).
  assert (Hm : x = strip x ++ post).
  { destruct (lstrip_spec (rev (lstrip x))) as (tl & Hr & _ & _).
    unfold strip, rstrip. rewrite Hl in *.
    apply (f_equal (@rev N)) in Hr. rewrite rev_involutive, rev_app_distr in Hr.
    rewrite Hr at 1. f_equal.
    rewrite Hs in Hr at 1. unfold strip, rstrip in Hr. rewrite Hl in Hr.
    destruct pre as [|c pre].
    - simpl in Hr. by apply app_inv_head in Hr.
    - apply Forall_cons in Hpre as [Hc _]. exfalso.
      rewrite <- Hl in Hs. destruct (lstrip_spec x) as (_ & _ & _ & Hhead).
      rewrite Hl in Hs, Hhead. rewrite Hs in Hhead.
      rewrite (Hhead c _ eq_refl) in Hc. discriminate Hc. }
  rewrite Hu in Hm at 1. apply app_eq_inv in Hm as [(k & Hk & Hpo) | (k & Hk & _)].
  - destruct k as [|b k _] using rev_ind.
    + rewrite app_nil_r in Hk. apply startswith_spec. exists []. by rewrite app_nil_r.
    + exfalso. rewrite Hk, app_assoc, last_snoc in Hz. injection Hz as ->.
      rewrite Hpo in Hpost. apply Forall_app in Hpost as [Hpost _].
      apply Forall_app in Hpost as [_ Hpost]. apply Forall_cons in Hpost as [Hpost _].
      congruence.
  - apply startswith_spec. by exists k.
Qed.

Lemma startswith_head s key a :
  startswith s key = true -> head key = Some a -> head s = Some a.
Proof.
  intros Hs Ha. apply startswith_spec in Hs as [t ->].
  destruct key; [discriminate Ha | exact Ha].
Qed.

Lemma key_const_ends : head key_const = Some 99%N /\ last key_const = Some 72%N.
Proof. split; vm_compute; reflexivity. Qed.

Lemma key_derive_head : head key_derive = Some 35%N.
Proof. vm_compute. reflexivity. Qed.

Lemma strip_keeps_key_const x :
  startswith x key_const = true -> startswith (strip x) key_const = true.
Proof.
  destruct key_const_ends as [Hh Hl].
  by apply (strip_keeps_prefix x key_const 99%N 72%N).
Qed.

(** No line is both a constants line and a [#[derive] line. *)
Lemma const_line_not_derive l :
  startswith l key_const = true -> startswith (strip l) key_derive = true -> False.
Proof.
  intros Hc Hd. apply strip_keeps_key_const in Hc.
  apply (startswith_head _ _ 99%N) in Hc; [|apply key_const_ends].
  apply (startswith_head _ _ 35%N) in Hd; [|apply key_derive_head].
  congruence.
Qed.

(** The lines the script scans, split at the constants line. *)
Lemma resolve_lines_app pre rest v :
  resolve (pre ++ rest) = Ok v -> ends_line pre ->
  startswith rest key_const = true -> length pre <= frame_cache_start v ->
  lines v = splitlines pre ++ splitlines (take (frame_cache_start v - length pre) rest).
Proof.
  intros H Hend Hrest Hle. apply resolve_Ok in H as (_ & _ & _ & _ & _ & _ & -> & _).
  rewrite take_app_ge by done. apply splitlines_app; [done|].
  apply (startswith_head _ _ 99%N) in Hrest; [|apply key_const_ends].
  destruct rest as [|c rest]; [discriminate Hrest|]. injection Hrest as ->.
  destruct (frame_cache_start v - length pre); simpl; discriminate.
Qed.

(** C9, as the code has it: when the constants line and every marker
    come after the text [pre], and the PreviewStats [#[derive] line does
    not come before the constants line, the run on the whole document
    builds the same five unit bodies as the run on [kept], the document
    with [pre] removed: nothing of [pre] reaches a unit.  Its [use] lines are
    gathered in [uses], which no unit reads, [rest] stays empty, and the
    types unit begins with the constants line. *)
Theorem text_before_constants_is_dropped pre kept v :
  resolve (pre ++ kept) = Ok v ->
  ends_line pre ->
  startswith kept key_const = true ->
  const_start v = length (splitlines pre) ->
  const_start v <= preview_stats_idx v ->
  length pre <= frame_cache_start v ->
  length pre <= renderer_start v ->
  length pre <= plate_start v ->
  length pre <= layers_start v ->
  length pre <= utils_start v ->
  (exists v', resolve kept = Ok v'
     /\ types_rs v' = types_rs v
     /\ cache_rs v' = cache_rs v
     /\ renderer_rs v' = renderer_rs v
     /\ layers_rs v' = layers_rs v
     /\ utils_rs v' = utils_rs v
     /\ uses v' = [])
  /\ uses v = filter (fun line => startswith line (lit "use ") = true) (splitlines pre)
  /\ rest v = []
  /\ startswith (types_rs v) key_const = true.
Proof.
  intros H Hend Hrest Hcs Hord Hfc Hrs Hps Hls Hus.
  pose proof (resolve_lines_app _ _ _ H Hend Hrest Hfc) as Hlines.
  pose proof (resolve_blocks _ _ H) as (_ & Hcb & Hrb & Hlb & Hub & Hfce).
  pose proof (resolve_types_blocks _ _ H) as [Hconst Htype].
  pose proof (resolve_Ok _ _ H) as (I1 & I2 & _ & I4 & I5 & I6 & _ & Hpsi & Hnc).
  set (A := splitlines pre) in *.
  set (B := splitlines (take (frame_cache_start v - length pre) kept)) in *.
  (* the constants line is the first line of [B] *)
  assert (HB : exists l B', B = l :: B' /\ startswith l key_const = true).
  { apply next_const_Ok in Hnc as (j & Hj & (l & Hl & Hs) & _). simpl in Hj.
    rewrite Hlines, <- Hj, Hcs, lookup_app_r, Nat.sub_diag in Hl by done.
    destruct B as [|l' B']; [discriminate Hl|]. injection Hl as ->. by exists l, B'. }
  destruct HB as (l & B' & HB & Hl).
  (* the PreviewStats line comes strictly later *)
  assert (Hlt : length A < preview_stats_idx v).
  { destruct (decide (preview_stats_idx v = length A)) as [Heq|]; [exfalso | lia].
    apply (next_preview_stats_Ok (lines v)) in Hpsi as (_ & (l2 & n & Hl2 & _ & Hd & _) & _);
      [|done].
    rewrite Hlines, Heq, lookup_app_r, Nat.sub_diag, HB in Hl2 by done.
    injection Hl2 as <-. by apply (const_line_not_derive l). }
  (* the line searches on the lines of [kept] alone *)
  assert (Hpsi' : next_preview_stats B 0 B = Ok (preview_stats_idx v - length A)).
  { apply next_preview_stats_app; [by rewrite <- Hlines | lia]. }
  assert (Hnc' : next_const 0 B = Ok 0).
  { rewrite HB. cbn [next_const]. by rewrite Hl. }
  assert (Huses : uses v = filter (fun line => startswith line (lit "use ") = true) A
                  /\ rest v = []).
  { assert (Hu : uses v = filter (fun line => startswith line (lit "use ") = true)
                            (take (const_start v) (lines v)) /\ rest v = []).
    { unfold resolve in H. unbind H. by injection H as <-. }
    destruct Hu as [-> ->]. split; [|done].
    by rewrite Hlines, Hcs, take_app_length. }
  split_and!; [| apply Huses | apply Huses |].
  - unfold resolve.
    rewrite (index_app_ge _ _ _ _ I1 Hfc). cbn [rbind].
    rewrite (index_app_ge _ _ _ _ I2 ltac:(rewrite Hfce; exact Hrs)). cbn [rbind].
    rewrite (index_app_ge _ _ _ _ I4 Hps). cbn [rbind].
    rewrite (index_app_ge _ _ _ _ I5 Hls). cbn [rbind].
    rewrite (index_app_ge _ _ _ _ I6 Hus). cbn [rbind].
    fold B. rewrite Hpsi'. cbn [rbind]. rewrite Hnc'. cbn [rbind].
    eexists. split; [reflexivity|].
    unfold types_rs, cache_rs, renderer_rs, layers_rs, utils_rs.
    cbn [const_block type_block cache_block renderer_block layers_block utils_block uses].
    rewrite Hconst, Htype, Hcb, Hrb, Hlb, Hub, Hlines, Hcs, Hfce.
    rewrite !slice_app_ge by (first [done | lia]).
    rewrite !drop_app_ge by (first [done | lia]).
    rewrite Nat.sub_diag. split_and!; reflexivity.
  - assert (Hcb' : startswith (const_block v) key_const = true).
    { rewrite Hconst, Hlines, Hcs, slice_app_ge, Nat.sub_diag by done.
      unfold slice. rewrite drop_0, HB.
      destruct (preview_stats_idx v - length A - 0) as [|k] eqn:Hk; [lia|].
      cbn [take firstn]. destruct (join_cons [LF] l (take k B')) as [t ->].
      by apply strip_keeps_key_const, startswith_app. }
    unfold types_rs. destruct (const_block v) as [|c cb] eqn:Hcbv.
    + destruct key_const_ends as [Hh _]. apply (startswith_head _ _ _ Hcb') in Hh.
      discriminate Hh.
    + rewrite <- !app_assoc. by apply startswith_app.
Qed.

Example doc_in_order_cut : doc_in_order = doc_preamble ++ doc_from_constants.
Proof. vm_compute. reflexivity. Qed.

Lemma text_before_constants_is_dropped_witness :
  exists v, resolve (doc_preamble ++ doc_from_constants) = Ok v
    /\ ends_line doc_preamble
    /\ startswith doc_from_constants key_const = true
    /\ const_start v = length (splitlines doc_preamble)
    /\ const_start v <= preview_stats_idx v
    /\ length doc_preamble <= frame_cache_start v
    /\ length doc_preamble <= renderer_start v
    /\ length doc_preamble <= plate_start v
    /\ length doc_preamble <= layers_start v
    /\ length doc_preamble <= utils_start v
    /\ (exists v', resolve doc_from_constants = Ok v'
          /\ types_rs v' = types_rs v
          /\ cache_rs v' = cache_rs v
          /\ renderer_rs v' = renderer_rs v
          /\ layers_rs v' = layers_rs v
          /\ utils_rs v' = utils_rs v
          /\ uses v' = [])
    /\ uses v = filter (fun line => startswith line (lit "use ") = true)
                  (splitlines doc_preamble)
    /\ rest v = []
    /\ startswith (types_rs v) key_const = true.
Proof.
  destruct (resolve (doc_preamble ++ doc_from_constants)) as [v|e] eqn:E;
    [|vm_compute in E; discriminate E].
  exists v. split; [reflexivity|].
  assert (H1 : ends_line doc_preamble) by (vm_compute; reflexivity).
  assert (H2 : startswith doc_from_constants key_const = true) by (vm_compute; reflexivity).
  assert (H3 : const_start v = length (splitlines doc_preamble)
               /\ const_start v <= preview_stats_idx v
               /\ length doc_preamble <= frame_cache_start v
               /\ length doc_preamble <= renderer_start v
               /\ length doc_preamble <= plate_start v
               /\ length doc_preamble <= layers_start v
               /\ length doc_preamble <= utils_start v).
  { vm_compute in E. injection E as <-. vm_compute. lia. }
  destruct H3 as (H3 & H4 & H5 & H6 & H7 & H8 & H9).
  split_and!; try assumption;
    apply (text_before_constants_is_dropped doc_preamble doc_from_constants v
             E H1 H2 H3 H4 H5 H6 H7 H8 H9).
Defined.

(** C9 as stated fails: with the PreviewStats lines ahead of the
    constants line, the types unit does not begin at the constants block
    and contains the text that precedes the constants line. *)
Lemma text_before_constants_can_reach_types_unit :
  exists v, resolve doc_derive_first = Ok v
    /\ const_start v = 2
    /\ take 2 (lines v) = [lit "#[derive(Debug)]"; lit "struct PreviewStats;"]
    /\ types_rs v
       = lit "#[derive(Debug)]\nstruct PreviewStats;\nconst DEFAULT_MAX_PREVIEW_WIDTH: u32 = 1;\n"
    /\ startswith (types_rs v) key_const = false
    /\ (main (checkout doc_derive_first)).1 = Ok tt.
Proof.
  destruct (resolve doc_derive_first) as [v|e] eqn:E; [|vm_compute in E; discriminate E].
  exists v. split; [reflexivity|].
  vm_compute in E. injection E as <-. split_and!; vm_compute; reflexivity.
Qed.

(** ** When boundary resolution succeeds *)

Lemma occurs_at_bound key s i a :
  occurs_at key s i -> head key = Some a -> i < length s.
Proof.
  intros [t Ht] Ha. destruct (decide (i < length s)) as [|Hge]; [done|].
  rewrite drop_ge in Ht by lia. destruct key; [discriminate Ha | discriminate Ht].
Qed.

Lemma first_occurrence_index key text off a :
  head key = Some a -> first_occurrence key text off -> index text key = Ok off.
Proof.
  intros Ha [Ho Hmin]. apply index_Ok. split_and!; [done | | done].
  pose proof (occurs_at_bound _ _ _ _ Ho Ha). lia.
Qed.

Lemma occurs_index key text : occurs key text -> exists i, index text key = Ok i.
Proof.
  intros Ho. destruct (index text key) as [i|e] eqn:E; [by exists i|].
  apply index_Raise in E as [Hno _]. done.
Qed.

Lemma next_const_complete i todo j :
  const_pattern_at todo j -> exists k, next_const i todo = Ok k.
Proof.
  revert i j; induction todo as [|line todo IH]; intros i j (l & Hl & Hs); [done|].
  cbn [next_const]. destruct (startswith line key_const) eqn:E; [by eexists|].
  destruct j as [|j]; [simpl in Hl; congruence|].
  apply (IH (S i) j). by exists l.
Qed.

Lemma next_preview_stats_complete ls todo i j :
  drop i ls = todo -> i <= j -> derive_pattern_at ls j ->
  exists k, next_preview_stats ls i todo = Ok k.
Proof.
  revert i; induction todo as [|line todo IH]; intros i Hdrop Hij Hpat.
  - destruct Hpat as (l & n & Hl & _). apply lookup_lt_Some in Hl.
    apply (f_equal length) in Hdrop. rewrite length_drop in Hdrop. simpl in Hdrop. lia.
  - assert (Hline : ls !! i = Some line).
    { pose proof (lookup_drop ls i 0) as Hl. rewrite Hdrop, Nat.add_0_r in Hl. done. }
    assert (Hdrop' : drop (S i) ls = todo).
    { pose proof (drop_drop ls 1 i) as Hd. rewrite Hdrop, Nat.add_1_r in Hd. done. }
    assert (Hnext : i < j -> exists k, next_preview_stats ls (S i) todo = Ok k).
    { intros Hlt. apply IH; [done | lia | done]. }
    cbn [next_preview_stats].
    destruct (startswith (strip line) key_derive) eqn:Hd.
    + unfold getitem. rewrite Nat.add_1_r.
      destruct (ls !! S i) as [n|] eqn:Hn; cbn [rbind].
      * destruct (contains key_preview_stats n) eqn:Hc; [by eexists|].
        apply Hnext. destruct (decide (i = j)) as [->|]; [|lia].
        destruct Hpat as (l' & n' & _ & Hn' & _ & Hc'). congruence.
      * exfalso. destruct Hpat as (l' & n' & _ & Hn' & _).
        apply lookup_lt_Some in Hn'. apply lookup_ge_None in Hn. lia.
    + apply Hnext. destruct (decide (i = j)) as [->|]; [|lia].
      destruct Hpat as (l' & n' & Hl' & _ & Hd' & _). congruence.
Qed.

(** Boundary resolution succeeds exactly when every [index] key occurs in
    the document and the lines in front of the first [struct FrameCache]
    hold a PreviewStats [#[derive] pair and a constants line. *)
Theorem resolve_succeeds_iff text :
  (exists v, resolve text = Ok v)
  <-> (forall k, k ∈ index_keys -> occurs k text)
      /\ exists fc, first_occurrence key_frame_cache text fc
           /\ (exists i, derive_pattern_at (splitlines (take fc text)) i)
           /\ (exists i, const_pattern_at (splitlines (take fc text)) i).
Proof.
  split.
  - intros [v H]. split; [by apply (resolve_Ok_markers text v)|].
    apply resolve_Ok in H as (H1 & _ & _ & _ & _ & _ & Hl & Hp & Hc).
    exists (frame_cache_start v). split; [by apply index_first_occurrence|].
    rewrite <- Hl. split.
    + exists (preview_stats_idx v).
      by apply (next_preview_stats_Ok (lines v)) in Hp as (_ & Hp & _).
    + apply next_const_Ok in Hc as (j & _ & Hc & _). by exists j.
  - intros (Hkeys & fc & Hfc & [i Hi] & [j Hj]).
    apply (first_occurrence_index _ _ _ 115%N) in Hfc; [|vm_compute; reflexivity].
    destruct (occurs_index key_generates text) as [a2 E2];
      [apply Hkeys, list_elem_of_further, list_elem_of_here|].
    destruct (occurs_index key_plate text) as [a3 E3];
      [apply Hkeys; do 3 apply list_elem_of_further; apply list_elem_of_here|].
    destruct (occurs_index key_pending text) as [a4 E4];
      [apply Hkeys; do 4 apply list_elem_of_further; apply list_elem_of_here|].
    destruct (occurs_index key_clamp text) as [a5 E5];
      [apply Hkeys; do 5 apply list_elem_of_further; apply list_elem_of_here|].
    destruct (next_preview_stats_complete (splitlines (take fc text)) (splitlines (take fc text))
                0 i eq_refl (Nat.le_0_l i) Hi) as [p Hp].
    destruct (next_const_complete 0 _ j Hj) as [c Hc].
    unfold resolve. rewrite Hfc. cbn [rbind]. rewrite E2. cbn [rbind].
    rewrite E3. cbn [rbind]. rewrite E4. cbn [rbind]. rewrite E5. cbn [rbind].
    rewrite Hp. cbn [rbind]. rewrite Hc. cbn [rbind]. by eexists.
Qed.

(** ** Outcomes of the line searches *)

Lemma next_preview_stats_Raise_last ls todo i e :
  drop i ls = todo ->
  next_preview_stats ls i todo = Raise e ->
  (forall j, i <= j -> ~ derive_pattern_at ls j)
  /\ ((e = IndexError "list index out of range"
       /\ exists l, last todo = Some l /\ startswith (strip l) key_derive = true)
      \/ (e = StopIteration
          /\ forall l, last todo = Some l -> startswith (strip l) key_derive = false)).
Proof.
  revert i; induction todo as [|line todo IH]; intros i Hdrop Hrun.
  { injection Hrun as <-. split; [|right; by split].
    intros j Hj (l & n & Hl & _). apply lookup_lt_Some in Hl.
    apply (f_equal length) in Hdrop. rewrite length_drop in Hdrop. simpl in Hdrop. lia. }
  assert (Hline : ls !! i = Some line).
  { pose proof (lookup_drop ls i 0) as Hl. rewrite Hdrop, Nat.add_0_r in Hl. done. }
  assert (Hdrop' : drop (S i) ls = todo).
  { pose proof (drop_drop ls 1 i) as Hd. rewrite Hdrop, Nat.add_1_r in Hd. done. }
  assert (Hstep : ~ derive_pattern_at ls i ->
                  next_preview_stats ls (S i) todo = Raise e ->
                  (todo = [] -> startswith (strip line) key_derive = false) ->
                  (forall j, i <= j -> ~ derive_pattern_at ls j)
                  /\ ((e = IndexError "list index out of range"
                       /\ exists l, last (line :: todo) = Some l
                                    /\ startswith (strip l) key_derive = true)
                      \/ (e = StopIteration
                          /\ forall l, last (line :: todo) = Some l ->
                                       startswith (strip l) key_derive = false))).
  { intros Hhere Hrest Hlast. destruct (IH _ Hdrop' Hrest) as [Hno Hout]. split.
    - intros j Hj. destruct (decide (j = i)) as [->|]; [done | apply Hno; lia].
    - destruct Hout as [(-> & l & Hl & Hd) | (-> & Hall)].
      + left. split; [done|]. exists l. split; [|done].
        destruct todo; [done | by rewrite last_cons_cons].
      + right. split; [done|]. intros l Hl. destruct todo as [|x todo].
        * injection Hl as <-. by apply Hlast.
        * rewrite last_cons_cons in Hl. by apply Hall. }
  cbn [next_preview_stats] in Hrun.
  destruct (startswith (strip line) key_derive) eqn:Hd.
  - unfold getitem in Hrun. rewrite Nat.add_1_r in Hrun.
    destruct (ls !! S i) as [n|] eqn:Hn; cbn [rbind] in Hrun.
    + destruct (contains key_preview_stats n) eqn:Hc; [discriminate Hrun|].
      apply Hstep; [|done|].
      * intros (l' & n' & _ & Hn' & _ & Hc'). congruence.
      * intros ->. apply lookup_lt_Some in Hn. apply (f_equal length) in Hdrop'.
        rewrite length_drop in Hdrop'. simpl in Hdrop'. lia.
    + injection Hrun as <-.
      assert (todo = []) as ->.
      { apply lookup_ge_None in Hn. apply (f_equal length) in Hdrop'.
        rewrite length_drop in Hdrop'. destruct todo; [done | simpl in Hdrop'; lia]. }
      split.
      * intros j Hj (l' & n' & Hl' & Hn' & _). apply lookup_lt_Some in Hn'.
        apply lookup_ge_None in Hn. destruct (decide (j = i)) as [->|]; lia.
      * left. split; [done|]. by exists line.
  - apply Hstep; [|done|done].
    intros (l' & n' & Hl' & _ & Hd' & _). congruence.
Qed.

(** The search of line 28 over the lines [ls]: it returns the index of the
    first line that starts (after [strip]) with [#[derive] and is followed
    by a line containing [PreviewStats]; when there is no such pair it
    raises [IndexError] if the last line is a [#[derive] line (the
    look-ahead [lines[i+1]] runs off the list) and [StopIteration]
    otherwise. *)
Theorem preview_stats_search_outcome ls :
  match next_preview_stats ls 0 ls with
  | Ok k =>
      derive_pattern_at ls k /\ forall j, j < k -> ~ derive_pattern_at ls j
  | Raise e =>
      (forall j, ~ derive_pattern_at ls j)
      /\ ((e = IndexError "list index out of range"
           /\ exists l, last ls = Some l /\ startswith (strip l) key_derive = true)
          \/ (e = StopIteration
              /\ forall l, last ls = Some l -> startswith (strip l) key_derive = false))
  end.
Proof.
  destruct (next_preview_stats ls 0 ls) as [k|e] eqn:E.
  - apply (next_preview_stats_Ok ls ls 0 k eq_refl) in E as (_ & Hk & Hmin).
    split; [done|]. intros j Hj. apply Hmin. lia.
  - apply (next_preview_stats_Raise_last ls ls 0 e eq_refl) in E as [Hno Hout].
    split; [|done]. intros j. apply Hno. lia.
Qed.

Lemma next_const_Raise_none i todo e :
  next_const i todo = Raise e ->
  e = StopIteration /\ forall j, ~ const_pattern_at todo j.
Proof.
  revert i; induction todo as [|line todo IH]; intros i.
  - intros [= <-]. split; [done|]. intros j (l & Hl & _). done.
  - cbn [next_const]. destruct (startswith line key_const) eqn:E; [discriminate|].
    intros H. destruct (IH _ H) as [-> Hno]. split; [done|].
    intros [|j] (l & Hl & Hs); [simpl in Hl; congruence|].
    apply (Hno j). by exists l.
Qed.

(** The search of line 31 over the lines [ls]: it returns the index of the
    first line that starts with the constants key, without stripping the
    line, and raises [StopIteration] when no line does. *)
Theorem const_search_outcome ls :
  match next_const 0 ls with
  | Ok k => const_pattern_at ls k /\ forall j, j < k -> ~ const_pattern_at ls j
  | Raise e => e = StopIteration /\ forall j, ~ const_pattern_at ls j
  end.
Proof.
  destruct (next_const 0 ls) as [k|e] eqn:E.
  - apply next_const_Ok in E as (j & Hj & Hk & Hmin). simpl in Hj. by subst j.
  - by apply next_const_Raise_none in E.
Qed.

(** ** The exception raised when a search fails *)

Lemma resolve_Raise_search_failure text e :
  resolve text = Raise e <-> search_failure text e.
Proof.
  split.
  - intros H. destruct (resolve_Raise text e H) as [[-> Hk] | [Hall _]]; [by left|].
    right. split; [done|].
    destruct (occurs_index key_frame_cache text) as [fc E1];
      [apply Hall, list_elem_of_here|].
    destruct (occurs_index key_generates text) as [a2 E2];
      [apply Hall, list_elem_of_further, list_elem_of_here|].
    destruct (occurs_index key_plate text) as [a3 E3];
      [apply Hall; do 3 apply list_elem_of_further; apply list_elem_of_here|].
    destruct (occurs_index key_pending text) as [a4 E4];
      [apply Hall; do 4 apply list_elem_of_further; apply list_elem_of_here|].
    destruct (occurs_index key_clamp text) as [a5 E5];
      [apply Hall; do 5 apply list_elem_of_further; apply list_elem_of_here|].
    exists fc. split; [by apply index_first_occurrence|]. cbv zeta.
    unfold resolve in H. rewrite E1 in H. cbn [rbind] in H. rewrite E2 in H.
    cbn [rbind] in H. rewrite E3 in H. cbn [rbind] in H. rewrite E4 in H.
    cbn [rbind] in H. rewrite E5 in H. cbn [rbind] in H.
    set (ls := splitlines (take fc text)) in *.
    destruct (next_preview_stats ls 0 ls) as [p|e1] eqn:Hp; cbn [rbind] in H.
    + right.
      apply (next_preview_stats_Ok ls ls 0 p eq_refl) in Hp as (_ & Hp & _).
      destruct (next_const 0 ls) as [c|e2] eqn:Hc; cbn [rbind] in H; [discriminate H|].
      injection H as <-. apply next_const_Raise_none in Hc as [-> Hno].
      split_and!; [by exists p | done | done].
    + left. injection H as <-.
      apply (next_preview_stats_Raise_last ls ls 0 e1 eq_refl) in Hp as [Hno Hout].
      split; [|done]. intros j. apply Hno. lia.
  - intros [[-> (k & Hin & Hno)] | (Hall & fc & Hfc & Hcase)].
    + destruct (marker_absent_resolve text) as [e He].
      { left. exists k. by split. }
      destruct (resolve_Raise text e He) as [[-> _] | [Hall _]]; [done|].
      exfalso. by apply Hno, Hall.
    + cbv zeta in Hcase.
      apply (first_occurrence_index _ _ _ 115%N) in Hfc; [|vm_compute; reflexivity].
      destruct (occurs_index key_generates text) as [a2 E2];
        [apply Hall, list_elem_of_further, list_elem_of_here|].
      destruct (occurs_index key_plate text) as [a3 E3];
        [apply Hall; do 3 apply list_elem_of_further; apply list_elem_of_here|].
      destruct (occurs_index key_pending text) as [a4 E4];
        [apply Hall; do 4 apply list_elem_of_further; apply list_elem_of_here|].
      destruct (occurs_index key_clamp text) as [a5 E5];
        [apply Hall; do 5 apply list_elem_of_further; apply list_elem_of_here|].
      unfold resolve. rewrite Hfc. cbn [rbind]. rewrite E2. cbn [rbind].
      rewrite E3. cbn [rbind]. rewrite E4. cbn [rbind]. rewrite E5. cbn [rbind].
      set (ls := splitlines (take fc text)) in *.
      destruct Hcase as [[Hno Hout] | ([j Hj] & Hno & ->)].
      * destruct (next_preview_stats ls 0 ls) as [p|e1] eqn:Hp; cbn [rbind].
        { apply (next_preview_stats_Ok ls ls 0 p eq_refl) in Hp as (_ & Hp & _).
          exfalso. by apply (Hno p). }
        apply (next_preview_stats_Raise_last ls ls 0 e1 eq_refl) in Hp as [_ Hout1].
        destruct Hout as [[-> (l & Hl & Hd)] | [-> Hd]];
          destruct Hout1 as [[-> (l1 & Hl1 & Hd1)] | [-> Hd1]]; try done.
        -- rewrite (Hd1 l Hl) in Hd. discriminate Hd.
        -- rewrite (Hd l1 Hl1) in Hd1. discriminate Hd1.
      * destruct (next_preview_stats_complete ls ls 0 j eq_refl (Nat.le_0_l j) Hj)
          as [p ->]. cbn [rbind].
        destruct (next_const 0 ls) as [c|e2] eqn:Hc; cbn [rbind].
        { apply next_const_Ok in Hc as (i & _ & Hc & _). exfalso. by apply (Hno i). }
        by apply next_const_Raise_none in Hc as [-> _].
Qed.

(** C4, as the code has it: boundary resolution fails with the exceptions
    of [str.index], of [next] and of list indexing, and with no other.
    It raises [ValueError] with the fixed message exactly when an [index]
    key occurs nowhere in the document.  When every key occurs, the line
    searches run over the lines in front of the first [struct FrameCache]
    only: with no PreviewStats pair among them the exception is
    [IndexError] if the last of these lines is a [#[derive] line and
    [StopIteration] otherwise, and with such a pair but no constants line
    it is [StopIteration].  In each of these cases the run is abandoned
    with that exception before any call that changes the files. *)
Theorem missing_marker_raises_builtin w text e :
  holds_document w text ->
  (resolve text = Raise e <-> search_failure text e)
  /\ (search_failure text e ->
      main w = (Raise e, {| cwd := repo_dir; files := files w; log := log w |}))
  /\ (search_failure text e ->
      e = ValueError "substring not found" \/ e = StopIteration
      \/ e = IndexError "list index out of range").
Proof.
  intros Hw. split_and!.
  - apply resolve_Raise_search_failure.
  - intros Hs. apply (main_resolution_fails w text e Hw).
    by apply resolve_Raise_search_failure.
  - intros Hs. apply resolve_Raise_search_failure in Hs.
    destruct (resolve_Raise text e Hs) as [[-> _] | [_ [->| ->]]]; auto.
Qed.

Lemma missing_marker_raises_builtin_witness :
  let w1 := checkout doc_stats_after_frame_cache in
  let e1 := IndexError "list index out of range" in
  let w2 := checkout doc_const_after_frame_cache in
  (holds_document w1 doc_stats_after_frame_cache
   /\ search_failure doc_stats_after_frame_cache e1
   /\ main w1 = (Raise e1, {| cwd := repo_dir; files := files w1; log := log w1 |}))
  /\ (holds_document w2 doc_const_after_frame_cache
      /\ search_failure doc_const_after_frame_cache StopIteration
      /\ main w2
         = (Raise StopIteration, {| cwd := repo_dir; files := files w2; log := log w2 |})).
Proof.
  intros w1 e1 w2.
  destruct (missing_marker_raises_builtin w1 doc_stats_after_frame_cache e1
              (checkout_holds doc_stats_after_frame_cache)) as (Hiff1 & Hmain1 & _).
  destruct (missing_marker_raises_builtin w2 doc_const_after_frame_cache StopIteration
              (checkout_holds doc_const_after_frame_cache)) as (Hiff2 & Hmain2 & _).
  assert (Hr1 : resolve doc_stats_after_frame_cache = Raise e1)
    by (vm_compute; reflexivity).
  assert (Hr2 : resolve doc_const_after_frame_cache = Raise StopIteration)
    by (vm_compute; reflexivity).
  apply Hiff1 in Hr1. apply Hiff2 in Hr2.
  split; (split; [apply checkout_holds|]).
  - split; [exact Hr1 | exact (Hmain1 Hr1)].
  - split; [exact Hr2 | exact (Hmain2 Hr2)].
Defined.

(** ** Blocks that start at their marker *)

Lemma rstrip_spec s :
  exists ws, s = rstrip s ++ ws /\ Forall (fun c => isspace c = true) ws.
Proof.
  destruct (lstrip_spec (rev s)) as (pre & Hs & Hpre & _).
  exists (rev pre). split.
  - unfold rstrip. rewrite <- rev_app_distr, <- Hs. by rewrite rev_involutive.
  - by apply Forall_rev.
Qed.

Lemma keeps_block_front_intro header block c :
  head block = Some c -> isspace c = false ->
  keeps_block_front (header, block, header ++ strip block ++ [LF]).
Proof.
  intros Hh Hc.
  assert (Hl : lstrip block = block).
  { destruct block as [|b block]; [done|]. injection Hh as ->. simpl. by rewrite Hc. }
  unfold strip. rewrite Hl.
  destruct (rstrip_spec block) as (ws & Hs & Hws).
  exists ws. split_and!; [done | done | | done].
  intros Hnil. rewrite Hnil in Hs. simpl in Hs. subst ws.
  destruct block as [|b block]; [done|]. injection Hh as ->.
  apply Forall_cons in Hws as [Hws _]. congruence.
Qed.

Lemma head_slice_at key (text : str) a b c :
  occurs_at key text a -> head key = Some c -> a < b -> head (slice text a b) = Some c.
Proof.
  intros [t Ht] Hc Hab. unfold slice. rewrite Ht.
  destruct key as [|k key]; [discriminate Hc|]. injection Hc as ->.
  destruct (b - a) as [|n] eqn:E; [lia | done].
Qed.

Lemma head_drop_at key (text : str) a c :
  occurs_at key text a -> head key = Some c -> head (drop a text) = Some c.
Proof.
  intros [t Ht] Hc. rewrite Ht.
  destruct key as [|k key]; [discriminate Hc | exact Hc].
Qed.

(** A block whose end marker lies after its start marker begins with the
    first character of its marker, so [strip] removes nothing in front:
    the body is the header, the block up to its trailing white space, and
    one line feed.  The utils block, which runs to the end of the
    document, is always of this kind. *)
Theorem header_units_keep_block_front text v :
  resolve text = Ok v ->
  (frame_cache_start v < frame_cache_impl_end v ->
   keeps_block_front (cache_header, cache_block v, cache_rs v))
  /\ (renderer_start v < plate_start v ->
      keeps_block_front (renderer_header, renderer_block v, renderer_rs v))
  /\ (layers_start v < utils_start v ->
      keeps_block_front (layers_header, layers_block v, layers_rs v))
  /\ keeps_block_front (utils_header, utils_block v, utils_rs v).
Proof.
  intros H.
  destruct (resolve_blocks _ _ H) as (_ & Hc & Hr & Hl & Hu & _).
  apply resolve_Ok in H as (H1 & _ & H3 & _ & H5 & H6 & _).
  apply index_Ok in H1 as [H1 _], H3 as [H3 _], H5 as [H5 _], H6 as [H6 _].
  assert (K1 : head key_frame_cache = Some 115%N) by (vm_compute; reflexivity).
  assert (K3 : head key_generates = Some 47%N) by (vm_compute; reflexivity).
  assert (K5 : head key_pending = Some 115%N) by (vm_compute; reflexivity).
  assert (K6 : head key_clamp = Some 102%N) by (vm_compute; reflexivity).
  split_and!.
  - intros Hlt. apply (keeps_block_front_intro cache_header (cache_block v) 115%N); [|done].
    rewrite Hc. by apply (head_slice_at key_frame_cache).
  - intros Hlt. apply (keeps_block_front_intro renderer_header (renderer_block v) 47%N); [|done].
    rewrite Hr. by apply (head_slice_at key_generates).
  - intros Hlt. apply (keeps_block_front_intro layers_header (layers_block v) 115%N); [|done].
    rewrite Hl. by apply (head_slice_at key_pending).
  - apply (keeps_block_front_intro utils_header (utils_block v) 102%N); [|done].
    rewrite Hu. by apply (head_drop_at key_clamp).
Qed.

Lemma header_units_keep_block_front_witness :
  exists v, resolve doc_in_order = Ok v
    /\ frame_cache_start v < frame_cache_impl_end v
    /\ renderer_start v < plate_start v
    /\ layers_start v < utils_start v
    /\ keeps_block_front (cache_header, cache_block v, cache_rs v)
    /\ keeps_block_front (renderer_header, renderer_block v, renderer_rs v)
    /\ keeps_block_front (layers_header, layers_block v, layers_rs v)
    /\ keeps_block_front (utils_header, utils_block v, utils_rs v).
Proof.
  destruct (resolve doc_in_order) as [v|e] eqn:E; [|vm_compute in E; discriminate E].
  exists v. split; [reflexivity|].
  assert (Ho : frame_cache_start v < frame_cache_impl_end v
               /\ renderer_start v < plate_start v
               /\ layers_start v < utils_start v).
  { vm_compute in E. injection E as <-. vm_compute. lia. }
  destruct Ho as (H1 & H2 & H3).
  destruct (header_units_keep_block_front doc_in_order v E) as (K1 & K2 & K3 & K4).
  split_and!; [exact H1 | exact H2 | exact H3 | exact (K1 H1) | exact (K2 H2)
              | exact (K3 H3) | exact K4].
Defined.

(** ** The types unit on documents with line feeds only *)

Lemma join_splitlines s :
  lf_only s -> exists tl, (tl = [] \/ tl = [LF]) /\ s = join [LF] (splitlines s) ++ tl.
Proof.
  induction s as [|c s IH]; intros Hlf.
  { exists []. by split; [left|]. }
  apply Forall_cons in Hlf as [Hc Hlf]. destruct (IH Hlf) as (tl & Htl & Hs).
  cbn [splitlines]. destruct (islinebreak c) eqn:Hb.
  - rewrite (Hc eq_refl). change (LF =? CR)%N with false. cbv iota.
    destruct (splitlines s) as [|l ls] eqn:E.
    + apply splitlines_nil in E as ->. exists [LF]. by split; [right|].
    + exists tl. split; [done|]. cbn [join]. simpl. by rewrite Hs at 1.
  - destruct (splitlines s) as [|l ls] eqn:E.
    + apply splitlines_nil in E as ->. exists []. by split; [left|].
    + exists tl. split; [done|]. rewrite Hs at 1. by destruct ls.
Qed.

Lemma join_app sep X Y :
  X <> [] -> Y <> [] -> join sep (X ++ Y) = join sep X ++ sep ++ join sep Y.
Proof.
  intros HX HY. induction X as [|x X IH]; [done|].
  destruct X as [|x' X].
  - destruct Y as [|y Y]; [done|]. reflexivity.
  - change (join sep ((x :: x' :: X) ++ Y)) with (x ++ sep ++ join sep ((x' :: X) ++ Y)).
    rewrite IH by done. change (join sep (x :: x' :: X)) with (x ++ sep ++ join sep (x' :: X)).
    by rewrite <- !app_assoc.
Qed.

Lemma last_app_singleton {A} (l : list A) (a : A) : last (l ++ [a]) = Some a.
Proof. by rewrite last_snoc. Qed.

(** On a types block whose line breaks are all line feeds, with the
    constants line in front of the PreviewStats [#[derive] line, the types
    body keeps the text of the block from the constants line on: the
    block is some whole lines, the constants part, a line feed, the types
    part and at most one final line feed, and the body is the two parts,
    each cut down by [strip] and followed by a line feed. *)
Theorem types_unit_keeps_text text v :
  resolve text = Ok v ->
  lf_only (types_block v) ->
  const_start v <= preview_stats_idx v ->
  exists before consts types tl,
    types_block v = before ++ consts ++ [LF] ++ types ++ tl
    /\ (before = [] \/ last before = Some LF)
    /\ (tl = [] \/ tl = [LF])
    /\ startswith consts key_const = true
    /\ types_rs v = strip consts ++ [LF] ++ strip types ++ [LF].
Proof.
  intros H Hlf Hle.
  destruct (resolve_blocks _ _ H) as (Htb & _).
  destruct (resolve_types_blocks _ _ H) as [Hcb Hty].
  apply resolve_Ok in H as (_ & _ & _ & _ & _ & _ & Hl & Hp & Hc).
  apply (next_preview_stats_Ok (lines v) (lines v) 0 _ eq_refl) in Hp as (_ & Hp & _).
  apply next_const_Ok in Hc as (j & Hj & Hc & _). simpl in Hj. subst j.
  destruct Hp as (dl & nl & Hdl & _ & Hd & _). destruct Hc as (cl & Hcl & Hcs).
  assert (Hlt : const_start v < preview_stats_idx v).
  { destruct (decide (const_start v = preview_stats_idx v)) as [E|]; [|lia].
    exfalso. rewrite E in Hcl. apply (const_line_not_derive cl); congruence. }
  assert (Hlen : preview_stats_idx v < length (lines v)) by by apply lookup_lt_Some in Hdl.
  set (L1 := slice (lines v) (const_start v) (preview_stats_idx v)) in *.
  set (L2 := drop (preview_stats_idx v) (lines v)) in *.
  assert (HL1 : exists L1', L1 = cl :: L1').
  { unfold L1, slice. rewrite (drop_S _ cl _ Hcl).
    destruct (preview_stats_idx v - const_start v) as [|n] eqn:E; [lia|]. by eexists. }
  destruct HL1 as [L1' HL1].
  assert (HL2 : L2 <> []).
  { unfold L2. rewrite (drop_S _ dl _ Hdl). done. }
  assert (Hsplit : lines v = take (const_start v) (lines v) ++ L1 ++ L2).
  { unfold L1, L2. rewrite app_assoc, take_slice by lia. by rewrite take_drop. }
  assert (Hjoin : exists before, (before = [] \/ last before = Some LF)
                    /\ join [LF] (lines v) = before ++ join [LF] L1 ++ [LF] ++ join [LF] L2).
  { destruct (take (const_start v) (lines v)) as [|x X] eqn:E.
    - exists []. split; [by left|]. rewrite Hsplit. simpl.
      apply join_app; [by rewrite HL1 | done].
    - exists (join [LF] (x :: X) ++ [LF]). split; [right; apply last_app_singleton|].
      rewrite Hsplit. rewrite join_app; [|done | rewrite HL1; done].
      rewrite (join_app [LF] L1 L2); [|by rewrite HL1 | done].
      by rewrite <- !app_assoc. }
  destruct Hjoin as (before & Hbefore & Hjoin).
  destruct (join_splitlines _ Hlf) as (tl & Htl & Hs).
  assert (Hlines : splitlines (types_block v) = lines v) by (by rewrite Htb, Hl).
  rewrite Hlines, Hjoin in Hs.
  assert (Hconsts : startswith (join [LF] L1) key_const = true).
  { rewrite HL1. destruct (join_cons [LF] cl L1') as [t ->].
    apply startswith_spec in Hcs as [u ->]. apply startswith_spec.
    exists (u ++ t). by rewrite <- app_assoc. }
  exists before, (join [LF] L1), (join [LF] L2), tl.
  split_and!; [by rewrite Hs, <- !app_assoc | done | done | done |].
  unfold types_rs. rewrite Hcb, Hty. fold L1 L2.
  pose proof (strip_keeps_key_const _ Hconsts) as Hk.
  destruct (strip (join [LF] L1)) as [|a r] eqn:E.
  - exfalso. apply (startswith_head _ _ 99%N) in Hk; [done | apply key_const_ends].
  - by rewrite <- !app_assoc.
Qed.

Lemma types_unit_keeps_text_witness :
  exists v, resolve doc_in_order = Ok v
    /\ lf_only (types_block v)
    /\ const_start v <= preview_stats_idx v
    /\ exists before consts types tl,
         types_block v = before ++ consts ++ [LF] ++ types ++ tl
         /\ (before = [] \/ last before = Some LF)
         /\ (tl = [] \/ tl = [LF])
         /\ startswith consts key_const = true
         /\ types_rs v = strip consts ++ [LF] ++ strip types ++ [LF].
Proof.
  destruct (resolve doc_in_order) as [v|e] eqn:E; [|vm_compute in E; discriminate E].
  exists v. split; [reflexivity|].
  assert (Ho : lf_only (types_block v) /\ const_start v <= preview_stats_idx v).
  { vm_compute in E. injection E as <-. split.
    - apply (bool_decide_unpack _). vm_compute. exact I.
    - vm_compute. lia. }
  destruct Ho as [H1 H2]. split; [exact H1|]. split; [exact H2|].
  exact (types_unit_keeps_text doc_in_order v E H1 H2).
Defined.

(** ** Files and log agree *)

Lemma action_performs ev w :
  (permits (cwd w) ev (files w)
   /\ action_of ev w
      = (Ok tt, {| cwd := cwd w; files := replay_event (cwd w) ev (files w);
                   log := log w ++ [ev] |}))
  \/ (~ permits (cwd w) ev (files w) /\ exists e, action_of ev w = (Raise e, w)).
Proof.
  destruct ev as [p|p data|p]; simpl.
  - unfold mkdir_exist_ok.
    destruct (files w !! (cwd w ++ p)) as [[c|]|] eqn:Hq.
    + right. split; [intros [?|[? _]]; congruence | by eexists].
    + left. split; [by left|]. by rewrite insert_id.
    + destruct (files w !! parent (cwd w ++ p)) as [[c|]|] eqn:Hp.
      * right. split; [intros [?|[_ ?]]; congruence | by eexists].
      * left. split; [by right | done].
      * right. split; [intros [?|[_ ?]]; congruence | by eexists].
  - unfold write_text.
    destruct (files w !! (cwd w ++ p)) as [[c|]|] eqn:Hq;
      [| right; split; [intros [? _]; congruence | by eexists] |];
      (destruct (files w !! parent (cwd w ++ p)) as [[c'|]|] eqn:Hp;
       [ right; split; [intros [_ ?]; congruence | by eexists]
       | left; split; [split; congruence | done]
       | right; split; [intros [_ ?]; congruence | by eexists] ]).
  - unfold unlink_missing_ok.
    destruct (files w !! (cwd w ++ p)) as [[c|]|] eqn:Hq.
    + left. split; [congruence | done].
    + right. split; [congruence | by eexists].
    + left. split; [congruence|]. by rewrite delete_id.
Qed.

Lemma replay_snoc base evs ev m :
  replay base (evs ++ [ev]) m = replay_event base ev (replay base evs m).
Proof. unfold replay. by rewrite foldl_app. Qed.

Lemma feasible_lookup base evs m n ev :
  feasible base evs m -> evs !! n = Some ev ->
  permits base ev (replay base (take n evs) m).
Proof.
  revert m n; induction evs as [|ev' evs IH]; intros m n Hf Hn; [done|].
  destruct Hf as [Ha Hf]. destruct n as [|n].
  - injection Hn as <-. exact Ha.
  - simpl. by apply IH.
Qed.

(** A chain of calls stops at the first one the files do not permit; its
    final world is the replay of the calls that returned. *)
Lemma sequence_replay evs w r w' :
  sequence (action_of <$> evs) w = (r, w') ->
  exists n, n <= length evs
    /\ w' = {| cwd := cwd w; files := replay (cwd w) (take n evs) (files w);
               log := log w ++ take n evs |}
    /\ feasible (cwd w) (take n evs) (files w)
    /\ (r = Ok tt <-> n = length evs)
    /\ (n < length evs ->
        exists ev, evs !! n = Some ev
                   /\ ~ permits (cwd w) ev (replay (cwd w) (take n evs) (files w))).
Proof.
  revert w; induction evs as [|ev evs IH]; intros w Hrun.
  - injection Hrun as <- <-. exists 0. destruct w as [c f l].
    split_and!; [done | by rewrite app_nil_r | done | done | simpl; lia].
  - rewrite fmap_cons, sequence_cons in Hrun.
    destruct (action_performs ev w) as [[Ha Hok] | [Hno [e He]]].
    + rewrite Hok in Hrun. apply IH in Hrun as (n & Hn & -> & Hf & Hr & Hstop).
      cbn [cwd files log] in *. exists (S n).
      split_and!; [simpl; lia | by rewrite <- app_assoc | by split | simpl; rewrite Hr; lia |].
      intros Hlt. apply Hstop. simpl in Hlt. lia.
    + rewrite He in Hrun. injection Hrun as <- <-. exists 0. destruct w as [c f l].
      split_and!; [lia | by rewrite app_nil_r | done | simpl; split; [discriminate | lia] |].
      intros _. by exists ev.
Qed.

(** How a run ends: before its first mutating call, with the files and
    the log untouched, or in the chain of mutating calls, with the world
    that replaying the calls that returned gives. *)
Lemma main_outcome w r w' :
  main w = (r, w') ->
  (files w' = files w /\ log w' = log w
   /\ exists e, r = Raise e /\ forall text, holds_document w text -> resolve text = Raise e)
  \/ (exists text v n,
        holds_document w text
        /\ resolve text = Ok v
        /\ n <= length (full_events v)
        /\ w' = {| cwd := repo_dir;
                   files := replay repo_dir (take n (full_events v)) (files w);
                   log := log w ++ take n (full_events v) |}
        /\ feasible repo_dir (take n (full_events v)) (files w)
        /\ (r = Ok tt <-> n = length (full_events v))
        /\ (n < length (full_events v) ->
            exists ev, full_events v !! n = Some ev
              /\ ~ permits repo_dir ev (replay repo_dir (take n (full_events v)) (files w)))).
Proof.
  unfold main, bind at 1. unfold chdir.
  destruct (files w !! repo_dir) as [[c|]|] eqn:Hd;
    [intros [= <- <-]; left; split_and!; [done..|]; eexists; split; [done|];
       intros t [Ht _]; congruence
    | | intros [= <- <-]; left; split_and!; [done..|]; eexists; split; [done|];
       intros t [Ht _]; congruence].
  unfold bind at 1. unfold read_text. cbn [cwd files].
  destruct (files w !! (repo_dir ++ preview_rs)) as [[text|]|] eqn:Hf;
    [| intros [= <- <-]; left; split_and!; [done..|]; eexists; split; [done|];
       intros t [_ Ht]; congruence
     | intros [= <- <-]; left; split_and!; [done..|]; eexists; split; [done|];
       intros t [_ Ht]; congruence].
  unfold bind at 1. unfold lift.
  destruct (resolve text) as [v|e] eqn:Hv;
    [|intros [= <- <-]; left; split_and!; [done..|]; exists e; split; [done|];
      intros t [_ Ht]; congruence].
  intros Hrun. right. exists text, v.
  change (sequence (action_of <$> full_events v)
            {| cwd := repo_dir; files := files w; log := log w |} = (r, w')) in Hrun.
  apply sequence_replay in Hrun as (n & Hn & Hw & Hfe & Hr & Hstop).
  exists n. split_and!; done.
Qed.

Lemma replay_lookup_frame base evs m a :
  Forall (fun ev => base ++ event_path ev <> a) evs ->
  replay base evs m !! a = m !! a.
Proof.
  intros Hall. revert m; induction Hall as [|ev evs Hev _ IH]; intros m; [done|].
  unfold replay. cbn [foldl]. fold (replay base evs (replay_event base ev m)). rewrite IH.
  destruct ev as [p|p d|p]; simpl in *;
    [by rewrite lookup_insert_ne | by rewrite lookup_insert_ne | by rewrite lookup_delete_ne].
Qed.

Lemma replay_app base l1 l2 m :
  replay base (l1 ++ l2) m = replay base l2 (replay base l1 m).
Proof. unfold replay. by rewrite foldl_app. Qed.

(** After a replay, the last event on a path decides what is there. *)
Lemma replay_lookup_event base evs m ev :
  ev ∈ evs -> NoDup (event_path <$> evs) ->
  replay base evs m !! (base ++ event_path ev)
  = replay_event base ev m !! (base ++ event_path ev).
Proof.
  intros Hin Hnd. apply list_elem_of_split in Hin as (l1 & l2 & ->).
  rewrite fmap_app, fmap_cons in Hnd. apply NoDup_app in Hnd as (_ & Hl1 & Hnd).
  apply NoDup_cons in Hnd as [Hl2 _].
  change (ev :: l2) with ([ev] ++ l2). rewrite !replay_app.
  rewrite replay_lookup_frame.
  - unfold replay at 1. cbn [foldl].
    destruct ev as [p|p d|p]; simpl;
      rewrite ?lookup_insert_eq, ?lookup_delete_eq; done.
  - apply Forall_forall. intros ev' Hev' Heq. apply app_inv_head in Heq.
    apply Hl2. rewrite <- Heq. by apply list_elem_of_fmap_2.
Qed.

Lemma full_events_paths_distinct v : NoDup (event_path <$> full_events v).
Proof. apply (bool_decide_unpack _). vm_compute. exact I. Qed.

Lemma full_events_paths v : event_path <$> full_events v = preview_dir :: (unit_path <$> unit_files) ++ [preview_rs].
Proof. reflexivity. Qed.

(** ** The files after a run *)

Lemma events_before_unlink_spare_original v :
  Forall (fun ev => repo_dir ++ event_path ev <> repo_dir ++ preview_rs)
         (events_before_unlink v).
Proof. apply (bool_decide_unpack _). vm_compute. exact I. Qed.

(** A run that raises leaves the original document where it was, with
    its content. *)
Theorem original_survives_failure w text e :
  holds_document w text -> (main w).1 = Raise e ->
  files (main w).2 !! (repo_dir ++ preview_rs) = Some (File text).
Proof.
  intros [Hd Hf] Hr. destruct (main w) as [r w'] eqn:Hrun. cbn [fst snd] in *.
  apply main_outcome in Hrun
    as [(Hfiles & _) | (text' & v & n & _ & _ & Hn & -> & _ & Hok & _)].
  - by rewrite Hfiles.
  - cbn [files]. assert (Hlt : n <= 7).
    { destruct (decide (n = 8)) as [->|]; [|simpl in Hn; lia].
      assert (r = Ok tt) by by apply Hok. congruence. }
    rewrite full_events_split, take_app_le by (simpl; lia).
    rewrite replay_lookup_frame; [done|].
    apply Forall_take, events_before_unlink_spare_original.
Qed.

Lemma original_survives_failure_witness :
  holds_document (checkout_blocked doc_in_order) doc_in_order
  /\ (main (checkout_blocked doc_in_order)).1 = Raise IsADirectoryError
  /\ files (main (checkout_blocked doc_in_order)).2 !! (repo_dir ++ preview_rs)
     = Some (File doc_in_order).
Proof.
  assert (Hr : (main (checkout_blocked doc_in_order)).1 = Raise IsADirectoryError)
    by (vm_compute; reflexivity).
  split; [apply checkout_blocked_holds|]. split; [exact Hr|].
  exact (original_survives_failure (checkout_blocked doc_in_order) doc_in_order
           IsADirectoryError (checkout_blocked_holds doc_in_order) Hr).
Defined.

Lemma touched_paths_events v :
  event_path <$> full_events v ≡ₚ touched_paths.
Proof. apply (bool_decide_unpack _). vm_compute. exact I. Qed.

Lemma returned_run_state w text :
  holds_document w text -> (main w).1 = Ok tt ->
  exists v, resolve text = Ok v
    /\ files (main w).2 !! (repo_dir ++ preview_rs) = None
    /\ files (main w).2 !! (repo_dir ++ preview_dir) = Some Dir
    /\ Forall (fun u => files (main w).2 !! (repo_dir ++ u.1) = Some (File u.2))
              (written (full_events v))
    /\ (forall a, a ∉ ((fun p => repo_dir ++ p) <$> touched_paths) ->
                  files (main w).2 !! a = files w !! a).
Proof.
  intros [Hd Hf] Hr. destruct (main w) as [r w'] eqn:Hrun. cbn [fst snd] in *.
  apply main_outcome in Hrun
    as [(_ & _ & e & -> & _) | (text' & v & n & [_ Hf'] & Hv & _ & -> & _ & Hok & _)];
    [discriminate Hr|].
  assert (text' = text) as -> by congruence.
  apply Hok in Hr. subst n. rewrite take_ge by done. cbn [files].
  pose proof (full_events_paths_distinct v) as Hnd.
  exists v. split_and!.
  - done.
  - pose proof (replay_lookup_event repo_dir (full_events v) (files w)
                  (EvUnlink preview_rs)) as H.
    cbn [event_path replay_event] in H. rewrite H; [apply lookup_delete_eq | | done].
    do 7 apply list_elem_of_further. apply list_elem_of_here.
  - pose proof (replay_lookup_event repo_dir (full_events v) (files w)
                  (EvMkdir preview_dir)) as H.
    cbn [event_path replay_event] in H.
    rewrite H; [apply lookup_insert_eq | apply list_elem_of_here | done].
  - apply Forall_forall. intros [p d] Hin. apply elem_of_written in Hin. cbn [fst snd].
    pose proof (replay_lookup_event repo_dir (full_events v) (files w) (EvWrite p d)) as H.
    cbn [event_path replay_event] in H. rewrite H; [apply lookup_insert_eq | done..].
  - intros a Ha. apply replay_lookup_frame. apply Forall_forall. intros ev Hev Heq.
    apply Ha. rewrite <- Heq. apply (list_elem_of_fmap_2 (fun p => repo_dir ++ p)).
    rewrite <- (touched_paths_events v). by apply list_elem_of_fmap_2.
Qed.

(** When a run returns, the original document is gone, the preview
    directory exists, every unit path holds the text composed for it, and
    every path other than these eight is as it was. *)
Theorem successful_run_final_state w text :
  holds_document w text -> (main w).1 = Ok tt ->
  exists v, resolve text = Ok v
    /\ files (main w).2 !! (repo_dir ++ preview_rs) = None
    /\ files (main w).2 !! (repo_dir ++ preview_dir) = Some Dir
    /\ Forall (fun u => files (main w).2 !! (repo_dir ++ u.1) = Some (File u.2))
              (written (full_events v))
    /\ (forall a, a ∉ ((fun p => repo_dir ++ p) <$> touched_paths) ->
                  files (main w).2 !! a = files w !! a).
Proof. exact (returned_run_state w text). Qed.

Lemma successful_run_final_state_witness :
  let w := checkout doc_in_order in
  holds_document w doc_in_order
  /\ (main w).1 = Ok tt
  /\ exists v, resolve doc_in_order = Ok v
       /\ files (main w).2 !! (repo_dir ++ preview_rs) = None
       /\ files (main w).2 !! (repo_dir ++ preview_dir) = Some Dir
       /\ Forall (fun u => files (main w).2 !! (repo_dir ++ u.1) = Some (File u.2))
                 (written (full_events v))
       /\ (forall a, a ∉ ((fun p => repo_dir ++ p) <$> touched_paths) ->
                     files (main w).2 !! a = files w !! a).
Proof.
  intros w.
  assert (Hr : (main w).1 = Ok tt) by (vm_compute; reflexivity).
  split; [apply checkout_holds|]. split; [exact Hr|].
  exact (successful_run_final_state w doc_in_order (checkout_holds doc_in_order) Hr).
Defined.

(** ** When a run returns *)

Ltac path_ne := apply (bool_decide_unpack _); vm_compute; exact I.

Ltac norm_lookup :=
  repeat first [ rewrite lookup_insert_eq | rewrite lookup_insert_ne by path_ne ].

Lemma parent_unit_path name : parent (repo_dir ++ unit_path name) = repo_dir ++ preview_dir.
Proof. unfold parent, unit_path. by rewrite app_assoc, removelast_last. Qed.

Lemma parent_preview_dir : parent (repo_dir ++ preview_dir) = repo_dir ++ parent preview_dir.
Proof. reflexivity. Qed.

Lemma feasible_full_events w text v :
  files w !! (repo_dir ++ preview_rs) = Some (File text) ->
  feasible repo_dir (full_events v) (files w) <-> can_commit w.
Proof.
  intros Hf. unfold can_commit, unit_files. rewrite !Forall_cons, Forall_nil.
  cbn [feasible full_events permits replay_event].
  rewrite !parent_unit_path, parent_preview_dir.
  norm_lookup. rewrite Hf. intuition (done || congruence).
Qed.

(** The run returns exactly when the document is in place, its markers
    resolve, and the files let the directory be made and the six units
    be written. *)
Theorem run_returns_iff w :
  (main w).1 = Ok tt
  <-> exists text v, holds_document w text /\ resolve text = Ok v /\ can_commit w.
Proof.
  destruct (main w) as [r w'] eqn:Hrun. cbn [fst].
  apply main_outcome in Hrun
    as [(_ & _ & e & -> & Hno) | (text & v & n & Hw & Hv & Hn & -> & Hfe & Hok & Hstop)].
  - split; [discriminate|]. intros (text & v & Hw & Hv & _).
    apply Hno in Hw. congruence.
  - pose proof (feasible_full_events w text v (proj2 Hw)) as Hfc. split.
    + intros Hr. apply Hok in Hr. subst n. rewrite take_ge in Hfe by done.
      exists text, v. split_and!; [done..|]. by apply Hfc.
    + intros (text' & v' & [_ Hf'] & Hv' & Hc). destruct Hw as [Hd Hf].
      assert (text' = text) as -> by congruence. assert (v' = v) as -> by congruence.
      apply Hok. destruct (decide (n = length (full_events v))) as [|Hne]; [done|].
      exfalso. destruct Hstop as (ev & Hev & Hna); [lia|].
      apply Hna. apply feasible_lookup; [by apply Hfc | done].
Qed.

(** Running the script again after it returned: the original is gone, so
    the second run raises [FileNotFoundError] when it reads it and leaves
    the world as the first run left it. *)
Theorem second_run_fails w text :
  holds_document w text -> (main w).1 = Ok tt ->
  main (main w).2 = (Raise FileNotFoundError, (main w).2).
Proof.
  intros Hw Hr. pose proof (returned_run_state w text Hw Hr)
    as (v & _ & Hgone & _ & _ & Hframe).
  assert (Hd : files (main w).2 !! repo_dir = Some Dir).
  { rewrite Hframe; [apply Hw|]. apply (bool_decide_unpack _). vm_compute. exact I. }
  assert (Hc : cwd (main w).2 = repo_dir).
  { destruct (main w) as [r w'] eqn:Hrun. cbn [fst snd] in *.
    apply main_outcome in Hrun as [(_ & _ & e & -> & _) | (t & v' & n & _ & _ & _ & -> & _)];
      [discriminate Hr | done]. }
  destruct (main w).2 as [c f l]. cbn [cwd files] in *. subst c.
  unfold main, bind at 1. unfold chdir. cbn [files]. rewrite Hd.
  unfold bind at 1. unfold read_text. cbn [cwd files log]. by rewrite Hgone.
Qed.

Lemma second_run_fails_witness :
  let w := checkout doc_in_order in
  holds_document w doc_in_order
  /\ (main w).1 = Ok tt
  /\ main (main w).2 = (Raise FileNotFoundError, (main w).2).
Proof.
  intros w.
  assert (Hr : (main w).1 = Ok tt) by (vm_compute; reflexivity).
  split; [apply checkout_holds|]. split; [exact Hr|].
  exact (second_run_fails w doc_in_order (checkout_holds doc_in_order) Hr).
Defined.
